(** * openapi-authz: policy resolution and serialization

    A shallow embedding of [internal/parser/parser.go] and
    [internal/model], a model of the serializer of [internal/generator]
    after its specification, and the properties of the natural-language
    specification that concern them.

    Conventions of the embedding.
    - A Go [string] is a sequence of bytes: Rocq's [string].  [len(s)] is
      [String.length s], [s[:5]] is [substring 0 5 s], [s[5:]] is
      [substring 5 (String.length s - 5) s].
    - A Go pointer [*T] is [ptr T = option T]; [None] is [nil].
    - A Go slice whose nil-ness the code tests ([Security]) is
      [option (list _)]; [None] is the nil slice, [Some []] the slice
      that is present and empty.  The slices [Roles] and [Scopes] are only
      ever appended to and measured, so they are plain lists ([[]] stands
      for both the nil and the empty slice).
    - A Go [map[K]V] is a [gmap K V].  A [for k, v := range m] loop visits
      the entries of [m] in an order the language leaves open: the
      embedding takes the order as a parameter ([MapOrder]) and the
      theorems hold for every order that enumerates the map ([Fair]).
    - A Go multiple return [(T, error)] is a pair [T * ptr error]. *)

From stdpp Require Import gmap strings list fin_maps sorting.
From Stdlib Require Import String Ascii.

Open Scope string_scope.

(** ** Go runtime notions *)

Abbreviation ptr A := (option A) (only parsing).

(** The [error] interface, as far as the program builds its values:
    [errorString] for an error carrying only a message, [wrapError] for
    the result of [fmt.Errorf] with a [%w] verb. *)
Inductive error : Type :=
  | errorString (s : string)
  | wrapError (msg : string) (err : error).

(** [e.Error()] *)
Definition Error (e : error) : string :=
  match e with
  | errorString s => s
  | wrapError msg _ => msg
  end.

(** [errors.Unwrap(e)] *)
Definition Unwrap (e : error) : ptr error :=
  match e with
  | errorString _ => None
  | wrapError _ err => Some err
  end.

(** [fmt.Errorf(prefix + ": %w", err)], the verbs before [%w] already
    formatted into [prefix]. *)
Definition Errorf_w (prefix : string) (err : error) : error :=
  wrapError (prefix ++ ": " ++ Error err) err.

(** ** package model *)

Record RouteKey : Type := mkRouteKey {
  Method : string;
  Path : string
}.

Record AuthPolicy : Type := mkAuthPolicy {
  RequireAuth : bool;
  Roles : list string;
  Scopes : list string
}.

#[global] Instance RouteKey_eq_dec : EqDecision RouteKey.
Proof. solve_decision. Defined.

#[global] Instance RouteKey_countable : Countable RouteKey.
Proof.
  refine (inj_countable' (λ k, (Method k, Path k))
                         (λ p, mkRouteKey p.1 p.2) _).
  by intros [].
Defined.

#[global] Instance AuthPolicy_eq_dec : EqDecision AuthPolicy.
Proof. solve_decision. Defined.

Record Config : Type := mkConfig {
  Policies : gmap RouteKey AuthPolicy
}.

(** The zero value [model.AuthPolicy{}]. *)
Definition AuthPolicy_zero : AuthPolicy :=
  {| RequireAuth := false; Roles := []; Scopes := [] |}.

(** ** package parser: the document types *)

(** [type securityRequirement map[string][]string] *)
Abbreviation securityRequirement := (gmap string (list string)) (only parsing).

Record operation : Type := mkOperation {
  op_Security : option (list securityRequirement)
}.

Record pathItem : Type := mkPathItem {
  Get : ptr operation;
  Post : ptr operation;
  Put : ptr operation;
  Delete : ptr operation;
  Patch : ptr operation;
  Options : ptr operation;
  Head : ptr operation
}.

Record openapiRoot : Type := mkOpenapiRoot {
  Security : option (list securityRequirement);
  Paths : gmap string (ptr pathItem)
}.

(** [var root openapiRoot] *)
Definition openapiRoot_zero : openapiRoot :=
  {| Security := None; Paths := ∅ |}.

(** The [yaml:"..."] tags of [pathItem]: the method names under which the
    document declares operations, each with the field it is decoded to. *)
Definition pathItem_tags : list (string * (pathItem → ptr operation)) :=
  [ ("get", Get); ("post", Post); ("put", Put); ("delete", Delete);
    ("patch", Patch); ("options", Options); ("head", Head) ].

(** [func (p *pathItem) Operations() map[string]*operation] *)
Definition Operations (p : pathItem) : gmap string (ptr operation) :=
  let ops : gmap string (ptr operation) := ∅ in
  let ops := if Get p is Some _ then <["GET" := Get p]> ops else ops in
  let ops := if Post p is Some _ then <["POST" := Post p]> ops else ops in
  let ops := if Put p is Some _ then <["PUT" := Put p]> ops else ops in
  let ops := if Delete p is Some _ then <["DELETE" := Delete p]> ops else ops in
  let ops := if Patch p is Some _ then <["PATCH" := Patch p]> ops else ops in
  let ops := if Options p is Some _ then <["OPTIONS" := Options p]> ops else ops in
  let ops := if Head p is Some _ then <["HEAD" := Head p]> ops else ops in
  ops.

(** ** Iteration order of [range] over a map *)

Record MapOrder : Type := mkMapOrder {
  (** [for scheme, scopes := range req] *)
  range_req : gmap string (list string) → list (string * list string);
  (** [for method, op := range item.Operations()], once per [rawPath] *)
  range_ops : string → gmap string (ptr operation) →
              list (string * ptr operation);
  (** [for rawPath, item := range root.Paths] *)
  range_paths : gmap string (ptr pathItem) → list (string * ptr pathItem)
}.

(** An order is fair when every loop visits each entry of its map once. *)
Definition Fair (o : MapOrder) : Prop :=
  (∀ m, range_req o m ≡ₚ map_to_list m) ∧
  (∀ p m, range_ops o p m ≡ₚ map_to_list m) ∧
  (∀ m, range_paths o m ≡ₚ map_to_list m).

(** The order in which [gmap] lists its entries. *)
Definition keyOrder : MapOrder :=
  {| range_req := map_to_list;
     range_ops := λ _, map_to_list;
     range_paths := map_to_list |}.

(** The reverse of [keyOrder]. *)
Definition revOrder : MapOrder :=
  {| range_req := λ m, reverse (map_to_list m);
     range_ops := λ _ m, reverse (map_to_list m);
     range_paths := λ m, reverse (map_to_list m) |}.

(** ** derivePolicy *)

Definition errNoBearer : error :=
  errorString "security section present but no BearerAuth requirement found".

(** [len(s) > 5 && s[:5] == "role:"] *)
Definition isRole (s : string) : bool :=
  (5 <? String.length s)%nat && String.eqb (substring 0 5 s) "role:".

(** The loop [for _, s := range scopes] of lines 135-141. *)
Fixpoint classify (scopes : list string) (policy : AuthPolicy) : AuthPolicy :=
  match scopes with
  | [] => policy
  | s :: rest =>
      if isRole s
      then classify rest
             {| RequireAuth := RequireAuth policy;
                Roles := Roles policy ++ [substring 5 (String.length s - 5) s];
                Scopes := Scopes policy |}
      else classify rest
             {| RequireAuth := RequireAuth policy;
                Roles := Roles policy;
                Scopes := Scopes policy ++ [s] |}
  end.

(** The loop [for scheme, scopes := range req] of lines 131-144, over the
    entries in the order they are visited.  [Some p]: the function
    returned [p, nil] from inside the loop; [None]: the loop ran out. *)
Fixpoint scanSchemes (entries : list (string * list string))
    (policy : AuthPolicy) : option AuthPolicy :=
  match entries with
  | [] => None
  | (scheme, scopes) :: rest =>
      if String.eqb scheme "BearerAuth"
      then Some (classify scopes
                   {| RequireAuth := true;
                      Roles := Roles policy;
                      Scopes := Scopes policy |})
      else scanSchemes rest policy
  end.

Section Resolver.

Variable order : MapOrder.

(** The loop [for _, req := range sec] of lines 130-145 and the final
    return of line 149. *)
Fixpoint scanRequirements (sec : list securityRequirement)
    (policy : AuthPolicy) : AuthPolicy * ptr error :=
  match sec with
  | [] => (AuthPolicy_zero, Some errNoBearer)
  | req :: rest =>
      match scanSchemes (range_req order req) policy with
      | Some p => (p, None)
      | None => scanRequirements rest policy
      end
  end.

(** [func derivePolicy(root *openapiRoot, op *operation) (model.AuthPolicy, error)] *)
Definition derivePolicy (root : openapiRoot) (op : operation)
    : AuthPolicy * ptr error :=
  let sec := op_Security op in
  let sec := if sec is None then Security root else sec in
  match sec with
  | Some [] =>
      ({| RequireAuth := false; Roles := []; Scopes := [] |}, None)
  | None =>
      ({| RequireAuth := false; Roles := []; Scopes := [] |}, None)
  | Some sec =>
      let policy := {| RequireAuth := false; Roles := []; Scopes := [] |} in
      scanRequirements sec policy
  end.

(** The loop [for method, op := range item.Operations()] of lines 33-44
    over the entries in the order they are visited, threading the
    [policies] map.  A non-nil error is the early return of line 41. *)
Fixpoint rangeOperations (root : openapiRoot) (rawPath : string)
    (ops : list (string * ptr operation))
    (policies : gmap RouteKey AuthPolicy)
    : gmap RouteKey AuthPolicy * ptr error :=
  match ops with
  | [] => (policies, None)
  | (method, op) :: rest =>
      match op with
      | None => rangeOperations root rawPath rest policies
      | Some op =>
          let key := {| Method := method; Path := rawPath |} in
          let '(policy, err) := derivePolicy root op in
          match err with
          | Some err =>
              (policies,
               Some (Errorf_w ("derive policy for " ++ method ++ " " ++ rawPath) err))
          | None =>
              rangeOperations root rawPath rest (<[key := policy]> policies)
          end
      end
  end.

(** The loop [for rawPath, item := range root.Paths] of lines 28-45. *)
Fixpoint rangePaths (root : openapiRoot)
    (items : list (string * ptr pathItem))
    (policies : gmap RouteKey AuthPolicy)
    : gmap RouteKey AuthPolicy * ptr error :=
  match items with
  | [] => (policies, None)
  | (rawPath, item) :: rest =>
      match item with
      | None => rangePaths root rest policies
      | Some item =>
          let '(policies, err) :=
            rangeOperations root rawPath
              (range_ops order rawPath (Operations item)) policies in
          match err with
          | Some err => (policies, Some err)
          | None => rangePaths root rest policies
          end
      end
  end.

(** [os.ReadFile] and [yaml.Unmarshal] are the program's collaborators:
    [ReadFile path] is the pair the call returns, [Unmarshal data root]
    the value of [root] after the call together with the error returned. *)
Variable ReadFile : string → string * ptr error.
Variable Unmarshal : string → openapiRoot → openapiRoot * ptr error.

(** [func ParseConfig(path string)], returning a [Config] pointer and an
    [error]. *)
Definition ParseConfig (path : string) : ptr Config * ptr error :=
  let '(data, err) := ReadFile path in
  match err with
  | Some err => (None, Some (Errorf_w "read spec" err))
  | None =>
      let root := openapiRoot_zero in
      let '(root, err) := Unmarshal data root in
      match err with
      | Some err => (None, Some (Errorf_w "unmarshal spec" err))
      | None =>
          let policies : gmap RouteKey AuthPolicy := ∅ in
          let '(policies, err) :=
            rangePaths root (range_paths order (Paths root)) policies in
          match err with
          | Some err => (None, Some err)
          | None => (Some {| Policies := policies |}, None)
          end
      end
  end.

End Resolver.

(** ** The fixture [testdata/basic.yaml], as the tests describe it *)

Definition bearer (tokens : list string) : securityRequirement :=
  {[ "BearerAuth" := tokens ]}.

Definition basic_yaml : openapiRoot :=
  {| Security := None;
     Paths :=
       <[ "/public" := Some (mkPathItem (Some (mkOperation None))
                               None None None None None None) ]>
       (<[ "/user" := Some (mkPathItem (Some (mkOperation (Some [bearer []])))
                               None None None None None None) ]>
       (<[ "/admin" := Some (mkPathItem None None None
                               (Some (mkOperation (Some [bearer ["role:admin"]])))
                               None None None) ]>
       (<[ "/scoped" := Some (mkPathItem None
                               (Some (mkOperation (Some [bearer ["vegetable:write"]])))
                               None None None None None) ]> ∅))) |}.

(** A document whose root requires the bearer scheme, with one operation
    that names only another scheme and one that overrides the root with
    an empty list. *)
Definition apiKey (tokens : list string) : securityRequirement :=
  {[ "ApiKeyAuth" := tokens ]}.

Definition getOnly (sec : option (list securityRequirement)) : ptr pathItem :=
  Some (mkPathItem (Some (mkOperation sec)) None None None None None None).

Definition mixed_yaml : openapiRoot :=
  {| Security := Some [bearer ["role:admin"]];
     Paths := <[ "/keys" := getOnly (Some [apiKey ["read"]]) ]>
              (<[ "/open" := getOnly (Some []) ]> ∅) |}.

(** Two documents that require the bearer scheme together with another
    one, and differ in the token list of the other one only. *)
Definition both (tokens other : list string) : securityRequirement :=
  <[ "ApiKeyAuth" := other ]> {[ "BearerAuth" := tokens ]}.

Definition both_yaml : openapiRoot :=
  {| Security := None;
     Paths := {[ "/items" := getOnly (Some [both ["role:admin"] ["read"]]) ]} |}.

Definition both_yaml' : openapiRoot :=
  {| Security := None;
     Paths := {[ "/items" := getOnly (Some [both ["role:admin"] []]) ]} |}.

(** A document with two operations whose resolution fails. *)
Definition twoBad_yaml : openapiRoot :=
  {| Security := None;
     Paths := <[ "/a" := getOnly (Some [apiKey []]) ]>
              (<[ "/b" := getOnly (Some [apiKey []]) ]> ∅) |}.

(** Collaborators for the examples: a file system on which every read
    succeeds, and a decoder that yields a given document. *)
Definition readAny (path : string) : string * ptr error := (path, None).

Definition decodeTo (root : openapiRoot) (data : string) (_ : openapiRoot)
    : openapiRoot * ptr error := (root, None).

(** A decoder for the two documents [both_yaml] and [both_yaml']. *)
Definition decodeBoth (data : string) (_ : openapiRoot)
    : openapiRoot * ptr error :=
  (if String.eqb data "both.yaml" then both_yaml else both_yaml', None).

(** ** Notions of the specification *)

(** The effective security requirement list of an operation: its own
    list when present, the root's otherwise. *)
Definition effectiveSecurity (root : openapiRoot) (op : operation)
    : option (list securityRequirement) :=
  match op_Security op with
  | Some sec => Some sec
  | None => Security root
  end.

(** The public policy. *)
Definition publicPolicy : AuthPolicy :=
  {| RequireAuth := false; Roles := []; Scopes := [] |}.

(** The token list of the first requirement object, in document order,
    that names the bearer scheme. *)
Definition firstBearer (sec : list securityRequirement)
    : option (list string) :=
  head (omap (λ req : securityRequirement, req !! "BearerAuth") sec).

(** A token carries the role prefix, read literally: it starts with
    ["role:"]. *)
Definition hasRolePrefix (s : string) : bool := String.prefix "role:" s.

(** The token without its first five bytes. *)
Definition stripRolePrefix (s : string) : string :=
  substring 5 (String.length s - 5) s.

(** The role a token names: what follows ["role:"], when something does. *)
Definition roleName (s : string) : option string :=
  match s with
  | String "r" (String "o" (String "l" (String "e" (String ":" name)))) =>
      if name is EmptyString then None else Some name
  | _ => None
  end.

(** A token is a scope when it names no role. *)
Definition isScope (s : string) : bool :=
  if roleName s is Some _ then false else true.

(** The policy a bearer token list stands for: the role names in order,
    and the remaining tokens in order. *)
Definition bearerPolicy (tokens : list string) : AuthPolicy :=
  {| RequireAuth := true;
     Roles := omap roleName tokens;
     Scopes := List.filter isScope tokens |}.

(** The policy of the claim read literally: every token that starts with
    ["role:"] is a role. *)
Definition literalPolicy (tokens : list string) : AuthPolicy :=
  {| RequireAuth := true;
     Roles := stripRolePrefix <$> List.filter hasRolePrefix tokens;
     Scopes := List.filter (λ s, negb (hasRolePrefix s)) tokens |}.

(** [strings.ToUpper] on ASCII. *)
Definition upperAscii (c : ascii) : ascii :=
  let n := nat_of_ascii c in
  if (97 <=? n)%nat && (n <=? 122)%nat then ascii_of_nat (n - 32) else c.

Fixpoint ToUpper (s : string) : string :=
  match s with
  | EmptyString => EmptyString
  | String c s => String (upperAscii c) (ToUpper s)
  end.

(** The operations a document declares: for each path with a non-null
    item, the non-null operations under the seven method names. *)
Definition itemOps (rawPath : string) (item : ptr pathItem)
    : list (string * string * operation) :=
  match item with
  | None => []
  | Some item =>
      omap (λ '(tag, field), (λ op, (tag, rawPath, op)) <$> field item)
           pathItem_tags
  end.

Definition declaredOps (root : openapiRoot)
    : list (string * string * operation) :=
  map_to_list (Paths root) ≫= λ '(rawPath, item), itemOps rawPath item.

(** The key under which a declared operation is resolved. *)
Definition routeKeyOf (d : string * string * operation) : RouteKey :=
  {| Method := ToUpper d.1.1; Path := d.1.2 |}.

(** [op] is the operation the loops of [ParseConfig] meet under key [k]. *)
Definition declaredAt (root : openapiRoot) (k : RouteKey) (op : operation)
    : Prop :=
  ∃ item, Paths root !! Path k = Some (Some item) ∧
          Operations item !! Method k = Some (Some op).

(** The operations one pass of the inner loop of [ParseConfig] resolves,
    in order, each with its key. *)
Definition opVisits (rawPath : string) (ops : list (string * ptr operation))
    : list (RouteKey * operation) :=
  omap (λ '(method, op),
          (λ op, ({| Method := method; Path := rawPath |}, op)) <$> op) ops.

(** The operations the two loops resolve, in order. *)
Definition pathVisits (o : MapOrder) (items : list (string * ptr pathItem))
    : list (RouteKey * operation) :=
  items ≫= λ '(rawPath, item),
    match item with
    | None => []
    | Some item => opVisits rawPath (range_ops o rawPath (Operations item))
    end.

(** The two loops of [ParseConfig] as one loop over the visits. *)
Fixpoint runVisits (o : MapOrder) (root : openapiRoot)
    (visits : list (RouteKey * operation))
    (policies : gmap RouteKey AuthPolicy)
    : gmap RouteKey AuthPolicy * ptr error :=
  match visits with
  | [] => (policies, None)
  | (key, op) :: rest =>
      let '(policy, err) := derivePolicy o root op in
      match err with
      | Some err =>
          (policies,
           Some (Errorf_w ("derive policy for " ++ Method key ++ " " ++ Path key)
                          err))
      | None => runVisits o root rest (<[key := policy]> policies)
      end
  end.

(** The error [ParseConfig] returns when the resolution of the operation
    under [k] fails. *)
Definition errDerive (k : RouteKey) : error :=
  Errorf_w ("derive policy for " ++ Method k ++ " " ++ Path k) errNoBearer.

(** The resolution of [op] fails: its effective list is non-empty and no
    requirement object in it names the bearer scheme. *)
Definition lacksBearer (root : openapiRoot) (op : operation) : Prop :=
  ∃ req sec, effectiveSecurity root op = Some (req :: sec) ∧
    Forall (λ r : securityRequirement, r !! "BearerAuth" = None) (req :: sec).

(** The invariant of [AuthPolicy]: a public policy lists nothing. *)
Definition publicIsEmpty (policy : AuthPolicy) : Prop :=
  RequireAuth policy = false → Roles policy = [] ∧ Scopes policy = [].

(** The file at [path] is read and decoded to [root] without error. *)
Definition loads (ReadFile : string → string * ptr error)
    (Unmarshal : string → openapiRoot → openapiRoot * ptr error)
    (path : string) (root : openapiRoot) : Prop :=
  ∃ data, ReadFile path = (data, None) ∧
          Unmarshal data openapiRoot_zero = (root, None).

(** ** Documents that differ only in the token lists of other schemes *)

Definition reqSim (r1 r2 : securityRequirement) : Prop :=
  dom r1 = dom r2 ∧ r1 !! "BearerAuth" = r2 !! "BearerAuth".

Definition secSim (s1 s2 : option (list securityRequirement)) : Prop :=
  option_Forall2 (Forall2 reqSim) s1 s2.

Definition opSim (o1 o2 : operation) : Prop :=
  secSim (op_Security o1) (op_Security o2).

Definition itemSim (i1 i2 : pathItem) : Prop :=
  Forall (λ '(_, field), option_Forall2 opSim (field i1) (field i2))
         pathItem_tags.

Definition rootSim (d1 d2 : openapiRoot) : Prop :=
  secSim (Security d1) (Security d2) ∧
  map_Forall2 (λ _, option_Forall2 itemSim) (Paths d1) (Paths d2).

(** ** package generator *)

(** The serializer, [internal/generator/generator.go], is not among the
    sources: only its test is.  It is modelled from section 4.2 of the
    specification and from the sample of generated code in the README. *)

Definition nl : string := String (ascii_of_nat 10) EmptyString.
Definition tab : string := String (ascii_of_nat 9) EmptyString.
Definition dquote : ascii := ascii_of_nat 34.
Definition backslash : ascii := ascii_of_nat 92.

(** Modelled from the spec: the total order over [RouteKey], method first,
    then path, each compared as byte strings. *)
Definition RouteKey_le (a b : RouteKey) : Prop :=
  (Method a ≠ Method b ∧ String.le (Method a) (Method b)) ∨
  (Method a = Method b ∧ String.le (Path a) (Path b)).

#[global] Instance RouteKey_le_dec : RelDecision RouteKey_le.
Proof. intros a b. unfold RouteKey_le. apply _. Defined.

(** Letters (with the underscore) and digits of an identifier. *)
Definition isLetter (c : ascii) : bool :=
  let n := nat_of_ascii c in
  ((65 <=? n)%nat && (n <=? 90)%nat) || ((97 <=? n)%nat && (n <=? 122)%nat)
  || (n =? 95)%nat.

Definition isDigit (c : ascii) : bool :=
  let n := nat_of_ascii c in (48 <=? n)%nat && (n <=? 57)%nat.

(** Modelled from the spec: the check of the namespace identifier, which
    [Generate] makes before it generates anything.  An identifier is valid
    when it is not empty, starts with a letter or an underscore and goes
    on with letters, digits and underscores. *)
Definition validIdent (pkg : string) : bool :=
  match pkg with
  | EmptyString => false
  | String c rest =>
      isLetter c &&
      forallb (λ c, isLetter c || isDigit c) (list_ascii_of_string rest)
  end.

(** Modelled from the spec: the escaping of string values in the
    generated text, a backslash before a double quote or a backslash. *)
Fixpoint escape (s : string) : string :=
  match s with
  | EmptyString => EmptyString
  | String c s =>
      if Ascii.eqb c dquote || Ascii.eqb c backslash
      then String backslash (String c (escape s))
      else String c (escape s)
  end.

Definition quote (s : string) : string :=
  String dquote (escape s ++ String dquote EmptyString).

(** Modelled from the spec: the rendering of the fields [Roles] and
    [Scopes], which are omitted when the list is empty. *)
Definition renderList (field : string) (l : list string) : string :=
  match l with
  | [] => EmptyString
  | _ => ", " ++ field ++ ": []string{"
         ++ String.concat ", " (quote <$> l) ++ "}"
  end.

Definition renderPolicy (p : AuthPolicy) : string :=
  "{RequireAuth: " ++ (if RequireAuth p then "true" else "false")
  ++ renderList "Roles" (Roles p) ++ renderList "Scopes" (Scopes p) ++ "}".

Definition renderEntry (cfg : Config) (k : RouteKey) : string :=
  tab ++ "{Method: " ++ quote (Method k) ++ ", Path: " ++ quote (Path k)
  ++ "}: " ++ renderPolicy (default AuthPolicy_zero (Policies cfg !! k))
  ++ "," ++ nl.

Definition header (pkg : string) : string :=
  "package " ++ pkg ++ nl ++ nl
  ++ "type RouteKey struct {" ++ nl
  ++ tab ++ "Method string" ++ nl
  ++ tab ++ "Path   string" ++ nl
  ++ "}" ++ nl ++ nl
  ++ "type AuthPolicy struct {" ++ nl
  ++ tab ++ "RequireAuth bool" ++ nl
  ++ tab ++ "Roles       []string" ++ nl
  ++ tab ++ "Scopes      []string" ++ nl
  ++ "}" ++ nl ++ nl
  ++ "var Policies = map[RouteKey]AuthPolicy{" ++ nl.

(** An iteration order over the policies of a [Config], and its fairness. *)
Definition FairKeys
    (range : gmap RouteKey AuthPolicy → list (RouteKey * AuthPolicy)) : Prop :=
  ∀ m, range m ≡ₚ map_to_list m.

(** Modelled from the spec: the keys in the order [Generate] emits the
    entries: collected from the map, then sorted. *)
Definition emittedKeys
    (range : gmap RouteKey AuthPolicy → list (RouteKey * AuthPolicy))
    (cfg : Config) : list RouteKey :=
  merge_sort RouteKey_le (range (Policies cfg)).*1.

(** Modelled from the spec: the function [Generate(pkg, cfg)] of
    [internal/generator/generator.go], which is missing from the sources.
    It returns the generated source text, or an error for an invalid
    namespace identifier before anything is generated. *)
Definition Generate
    (range : gmap RouteKey AuthPolicy → list (RouteKey * AuthPolicy))
    (pkg : string) (cfg : Config) : string * ptr error :=
  if validIdent pkg
  then (header pkg
        ++ String.concat EmptyString (renderEntry cfg <$> emittedKeys range cfg)
        ++ "}" ++ nl, None)
  else (EmptyString, Some (errorString ("invalid package name " ++ quote pkg))).

(** The [Config] of [TestGenerate_MatchesGolden]. *)
Definition golden_cfg : Config :=
  {| Policies :=
       <[ mkRouteKey "GET" "/public" := mkAuthPolicy false [] [] ]>
       (<[ mkRouteKey "GET" "/user" := mkAuthPolicy true [] [] ]>
       (<[ mkRouteKey "DELETE" "/admin" := mkAuthPolicy true ["admin"] [] ]>
       (<[ mkRouteKey "POST" "/scoped" :=
             mkAuthPolicy true [] ["vegetable:write"] ]> ∅))) |}.

(** ** package e2e: the middleware of the end-to-end test *)

(** [internal/e2e/e2e_test.go] carries a copy of the middleware of the
    README.  Its local types [RouteKey] and [AuthPolicy] are field by
    field those of package [model], which stand for them here. *)

Record Claims : Type := mkClaims {
  claims_Roles : list string;
  claims_Scopes : list string
}.

(** The inner loop [for _, have := range claims.Roles] of [hasAnyRole]:
    [true] is the [return true] from inside it. *)
Fixpoint hasAnyRole_have (have : list string) (r : string) : bool :=
  match have with
  | [] => false
  | h :: rest => if String.eqb h r then true else hasAnyRole_have rest r
  end.

(** The loop [for _, r := range required] of [hasAnyRole]. *)
Fixpoint hasAnyRole_required (claims : Claims) (required : list string)
    : bool :=
  match required with
  | [] => false
  | r :: rest =>
      if hasAnyRole_have (claims_Roles claims) r then true
      else hasAnyRole_required claims rest
  end.

(** [func hasAnyRole(claims *Claims, required ...string) bool], on a
    non-nil [claims]. *)
Definition hasAnyRole (claims : Claims) (required : list string) : bool :=
  hasAnyRole_required claims required.

(** The inner loop of [hasAllScopes], which sets [found] and breaks. *)
Fixpoint hasAllScopes_found (have : list string) (r : string) (found : bool)
    : bool :=
  match have with
  | [] => found
  | h :: rest => if String.eqb h r then true else hasAllScopes_found rest r found
  end.

(** [func hasAllScopes(claims *Claims, required ...string) bool], on a
    non-nil [claims]. *)
Fixpoint hasAllScopes (claims : Claims) (required : list string) : bool :=
  match required with
  | [] => true
  | r :: rest =>
      let found := false in
      let found := hasAllScopes_found (claims_Scopes claims) r found in
      if negb found then false else hasAllScopes claims rest
  end.

(** What the middleware needs of a request: whether the router attached
    a route context, the method, the path, and the claims that
    [withClaims] stored in the context, if any. *)
Record Request : Type := mkRequest {
  req_routeCtx : bool;
  req_Method : string;
  req_Path : string;
  req_claims : ptr Claims
}.

(** What the middleware does with a request: [next.ServeHTTP(w, r)] or
    [http.Error(w, msg, code)]. *)
Inductive response : Type :=
  | Next
  | httpError (msg : string) (code : nat).

Definition StatusUnauthorized : nat := 401.
Definition StatusForbidden : nat := 403.

(** [func withClaims(next http.Handler, claims *Claims) http.Handler]: the
    request [next] receives. *)
Definition withClaims (claims : ptr Claims) (r : Request) : Request :=
  {| req_routeCtx := req_routeCtx r; req_Method := req_Method r;
     req_Path := req_Path r; req_claims := claims |}.

(** [func AuthPolicyMiddleware(next http.Handler) http.Handler]: the
    handler it returns, over the policy table it consults (the variable
    [testPoliciesByPath] of the test, [Policies] in the README). *)
Definition AuthPolicyMiddleware (policies : gmap RouteKey AuthPolicy)
    (r : Request) : response :=
  if negb (req_routeCtx r) then Next
  else
    let key := {| Method := req_Method r; Path := req_Path r |} in
    match policies !! key with
    | None => Next
    | Some policy =>
        if negb (RequireAuth policy) then Next
        else
          match req_claims r with
          | None => httpError "unauthorized" StatusUnauthorized
          | Some claims =>
              if (0 <? List.length (Roles policy))%nat
                 && negb (hasAnyRole claims (Roles policy))
              then httpError "forbidden" StatusForbidden
              else if (0 <? List.length (Scopes policy))%nat
                      && negb (hasAllScopes claims (Scopes policy))
              then httpError "forbidden" StatusForbidden
              else Next
          end
    end.

(** [var testPoliciesByPath] *)
Definition testPoliciesByPath : gmap RouteKey AuthPolicy :=
  <[ mkRouteKey "GET" "/public" := mkAuthPolicy false [] [] ]>
  (<[ mkRouteKey "GET" "/user" := mkAuthPolicy true [] [] ]>
  (<[ mkRouteKey "DELETE" "/admin" := mkAuthPolicy true ["admin"] [] ]>
  (<[ mkRouteKey "POST" "/scoped" :=
        mkAuthPolicy true [] ["vegetable:write"] ]> ∅))).

(** The claims hold every role and every scope of [c1]. *)
Definition claimsIncluded (c1 c2 : Claims) : Prop :=
  claims_Roles c1 ⊆ claims_Roles c2 ∧ claims_Scopes c1 ⊆ claims_Scopes c2.

(** The request is let through by the policy table. *)
Definition letsThrough (policies : gmap RouteKey AuthPolicy) (r : Request)
    : Prop :=
  req_routeCtx r = false ∨
  policies !! mkRouteKey (req_Method r) (req_Path r) = None ∨
  ∃ policy,
    policies !! mkRouteKey (req_Method r) (req_Path r) = Some policy ∧
    (RequireAuth policy = false ∨
     ∃ claims, req_claims r = Some claims ∧
       (Roles policy = [] ∨
        ∃ role, role ∈ Roles policy ∧ role ∈ claims_Roles claims) ∧
       Scopes policy ⊆ claims_Scopes claims).

(** ** package main *)

(** What a run of [main] does, in order: a line on standard error, a call
    of [os.WriteFile], [os.Exit]. *)
Inductive event : Type :=
  | Stderr (s : string)
  | WriteFile (name data : string) (perm : N)
  | Exit (code : Z).

(** What [flag.Parse()] does with the command line.  The command line of
    package [flag] exits on error: the call either returns, with the
    flags that were given, or prints to standard error and calls
    [os.Exit] itself (an undefined or malformed flag, [-h]). *)
Inductive flagResult : Type :=
  | flagParsed (flags : gmap string string)
  | flagExit (lines : list string) (code : Z).

(** The value of the pointer [flag.String(name, value, usage)] returns,
    once [flag.Parse()] has returned. *)
Definition flag_String (flags : gmap string string) (name value : string)
    : string :=
  default value (flags !! name).

Section Main.

(** [flag.Parse()] on the command line of the run. *)
Variable parsed : flagResult.

(** [parser.ParseConfig]; [generator.Generate], whose source is missing;
    the error [os.WriteFile] returns. *)
Variable parseConfig : string → ptr Config * ptr error.
Variable generate : string → ptr Config → string * ptr error.
Variable writeFile : string → string → N → ptr error.

(** [func main()] *)
Definition main : list event :=
  match parsed with
  | flagExit lines code => ((Stderr <$> lines) ++ [Exit code])%list
  | flagParsed flags =>
      let in_ := flag_String flags "in" EmptyString in
      let out := flag_String flags "out" EmptyString in
      let pkg := flag_String flags "pkg" "httproutes" in
      if String.eqb in_ EmptyString || String.eqb out EmptyString
      then [Stderr ("-in and -out are required" ++ nl); Exit 1]
      else
        let '(cfg, err) := parseConfig in_ in
        match err with
        | Some err => [Stderr ("parse spec: " ++ Error err ++ nl); Exit 1]
        | None =>
            let '(code, err) := generate pkg cfg in
            match err with
            | Some err =>
                [Stderr ("generate code: " ++ Error err ++ nl); Exit 1]
            | None =>
                match writeFile out code 420%N with
                | Some err =>
                    [WriteFile out code 420%N;
                     Stderr ("write output: " ++ Error err ++ nl); Exit 1]
                | None => [WriteFile out code 420%N]
                end
            end
        end
  end.

End Main.

(** * Properties *)

(** ** Strings *)

Lemma substring_whole (s : string) : substring 0 (String.length s) s = s.
Proof. induction s as [|a s IH]; [done |]. cbn. by rewrite IH. Qed.

Lemma append_String (a : ascii) (s t : string) :
  String a s ++ t = String a (s ++ t).
Proof. reflexivity. Qed.

Lemma substring_split (n : nat) (s : string) :
  (n ≤ String.length s)%nat →
  substring 0 n s ++ substring n (String.length s - n) s = s.
Proof.
  revert s. induction n as [|n IH]; intros s Hn.
  - rewrite Nat.sub_0_r, substring_whole. by destruct s.
  - destruct s as [|a s]; cbn in Hn; [lia |].
    cbn [substring String.length Nat.sub]. rewrite append_String.
    f_equal. apply IH. lia.
Qed.

Lemma isRole_iff (s : string) :
  isRole s = true ↔ (5 < String.length s)%nat ∧ String.prefix "role:" s = true.
Proof.
  unfold isRole. rewrite andb_true_iff, Nat.ltb_lt, String.eqb_eq.
  by rewrite (prefix_correct "role:" s).
Qed.

Lemma roleName_Some (s name : string) :
  roleName s = Some name ↔ name ≠ EmptyString ∧ s = "role:" ++ name.
Proof.
  split.
  - unfold roleName. intros Hname.
    do 5 (destruct s as [|[[] [] [] [] [] [] [] []] s]; try discriminate).
    destruct s; [discriminate |]. by injection Hname as <-.
  - intros [Hne ->]. cbn. by destruct name.
Qed.

Lemma isRole_roleName (s : string) :
  isRole s = true → roleName s = Some (stripRolePrefix s).
Proof.
  intros [Hlen Hpre]%isRole_iff. apply prefix_correct in Hpre.
  cbn [String.length] in Hpre.
  pose proof (substring_split 5 s ltac:(lia)) as Hs.
  rewrite Hpre in Hs. fold (stripRolePrefix s) in Hs.
  apply roleName_Some. split; [|done].
  intros Heq. rewrite Heq in Hs. rewrite <- Hs in Hlen.
  vm_compute in Hlen. lia.
Qed.

Lemma not_isRole_roleName (s : string) :
  isRole s = false → roleName s = None.
Proof.
  intros Hno. destruct (roleName s) as [name|] eqn:Hname; [|done].
  apply roleName_Some in Hname as [Hne ->].
  destruct name; [done |]. discriminate.
Qed.

(** ** Token classification *)

Lemma classify_spec (tokens : list string) (policy : AuthPolicy) :
  classify tokens policy =
    {| RequireAuth := RequireAuth policy;
       Roles := Roles policy ++ omap roleName tokens;
       Scopes := Scopes policy ++ List.filter isScope tokens |}.
Proof.
  revert policy. induction tokens as [|s tokens IH]; intros policy.
  - cbn. rewrite !app_nil_r. by destruct policy.
  - cbn [classify omap list_omap List.filter].
    destruct (isRole s) eqn:Hs; rewrite IH; cbn [RequireAuth Roles Scopes negb].
    + unfold isScope. rewrite (isRole_roleName s Hs). unfold stripRolePrefix.
      by rewrite <- app_assoc.
    + unfold isScope. rewrite (not_isRole_roleName s Hs).
      by rewrite <- app_assoc.
Qed.

Lemma classify_bearerPolicy (tokens : list string) :
  classify tokens {| RequireAuth := true; Roles := []; Scopes := [] |}
  = bearerPolicy tokens.
Proof. by rewrite classify_spec. Qed.

(** ** The scan for the bearer scheme *)

Lemma scanSchemes_None (entries : list (string * list string))
    (policy : AuthPolicy) :
  scanSchemes entries policy = None ↔ "BearerAuth" ∉ entries.*1.
Proof.
  induction entries as [|[scheme scopes] entries IH]; cbn.
  - split; [intros _ | done]. apply not_elem_of_nil.
  - rewrite not_elem_of_cons. destruct (String.eqb_spec scheme "BearerAuth").
    + split; [done | intros [? _]; congruence].
    + rewrite IH. split; [by split | by intros [_ ?]].
Qed.

Lemma scanSchemes_Some (entries : list (string * list string))
    (policy p : AuthPolicy) :
  scanSchemes entries policy = Some p →
  ∃ tokens, ("BearerAuth", tokens) ∈ entries ∧
    p = classify tokens {| RequireAuth := true; Roles := Roles policy;
                           Scopes := Scopes policy |}.
Proof.
  induction entries as [|[scheme scopes] entries IH]; cbn; [done |].
  destruct (String.eqb_spec scheme "BearerAuth") as [-> | Hne].
  - intros [= <-]. exists scopes. split; [left | done].
  - intros (tokens & Hin & ->)%IH. exists tokens. split; [by right | done].
Qed.

(** Whatever the order in which the entries of a requirement object are
    visited, the inner loop finds the entry of ["BearerAuth"], if any. *)
Lemma scanSchemes_lookup (entries : list (string * list string))
    (req : securityRequirement) (policy : AuthPolicy) :
  entries ≡ₚ map_to_list req →
  scanSchemes entries policy =
    (λ tokens, classify tokens {| RequireAuth := true; Roles := Roles policy;
                                  Scopes := Scopes policy |})
      <$> req !! "BearerAuth".
Proof.
  intros Hperm.
  destruct (scanSchemes entries policy) as [p|] eqn:Hscan.
  - apply scanSchemes_Some in Hscan as (tokens & Hin & ->).
    rewrite Hperm in Hin. apply elem_of_map_to_list in Hin. by rewrite Hin.
  - apply scanSchemes_None in Hscan.
    destruct (req !! "BearerAuth") as [tokens|] eqn:Hreq; [|done].
    exfalso. apply Hscan. apply elem_of_map_to_list in Hreq.
    rewrite <- Hperm in Hreq.
    by apply (list_elem_of_fmap_2 fst) in Hreq.
Qed.

Lemma firstBearer_cons (req : securityRequirement)
    (sec : list securityRequirement) :
  firstBearer (req :: sec) =
    match req !! "BearerAuth" with
    | Some tokens => Some tokens
    | None => firstBearer sec
    end.
Proof. unfold firstBearer. cbn. by destruct (req !! "BearerAuth"). Qed.

Lemma scanRequirements_spec (o : MapOrder) (sec : list securityRequirement) :
  Fair o →
  scanRequirements o sec {| RequireAuth := false; Roles := []; Scopes := [] |} =
    match firstBearer sec with
    | Some tokens => (bearerPolicy tokens, None)
    | None => (AuthPolicy_zero, Some errNoBearer)
    end.
Proof.
  intros (Hreq & _ & _). induction sec as [|req sec IH]; [done |].
  cbn [scanRequirements]. rewrite firstBearer_cons.
  rewrite (scanSchemes_lookup _ req) by apply Hreq.
  destruct (req !! "BearerAuth") as [tokens|]; cbn; [|done].
  by rewrite classify_bearerPolicy.
Qed.

(** [derivePolicy] in closed form. *)
Lemma derivePolicy_spec (o : MapOrder) (root : openapiRoot) (op : operation) :
  Fair o →
  derivePolicy o root op =
    match effectiveSecurity root op with
    | None | Some [] => (publicPolicy, None)
    | Some sec =>
        match firstBearer sec with
        | Some tokens => (bearerPolicy tokens, None)
        | None => (AuthPolicy_zero, Some errNoBearer)
        end
    end.
Proof.
  intros Hfair. unfold derivePolicy, effectiveSecurity.
  destruct (op_Security op) as [[|req sec]|]; [done | | ].
  - by rewrite scanRequirements_spec.
  - destruct (Security root) as [[|req sec]|]; [done | | done].
    by rewrite scanRequirements_spec.
Qed.

(** The result of [derivePolicy] does not depend on the iteration order. *)
Lemma derivePolicy_order (o1 o2 : MapOrder) (root : openapiRoot)
    (op : operation) :
  Fair o1 → Fair o2 → derivePolicy o1 root op = derivePolicy o2 root op.
Proof. intros H1 H2. by rewrite !derivePolicy_spec. Qed.

Lemma Fair_keyOrder : Fair keyOrder.
Proof. by repeat split. Qed.

Lemma Fair_revOrder : Fair revOrder.
Proof. repeat split; intros; cbn; apply reverse_Permutation. Qed.

Lemma firstBearer_None (sec : list securityRequirement) :
  firstBearer sec = None ↔
  Forall (λ req : securityRequirement, req !! "BearerAuth" = None) sec.
Proof.
  induction sec as [|req sec IH]; [by split |].
  rewrite firstBearer_cons, Forall_cons.
  destruct (req !! "BearerAuth").
  - split; [done | by intros [? _]].
  - rewrite IH. split; [by split | by intros [_ ?]].
Qed.

Lemma firstBearer_app (pre : list securityRequirement)
    (req : securityRequirement) (post : list securityRequirement)
    (tokens : list string) :
  Forall (λ req : securityRequirement, req !! "BearerAuth" = None) pre →
  req !! "BearerAuth" = Some tokens →
  firstBearer (pre ++ req :: post) = Some tokens.
Proof.
  intros Hpre Hreq. induction Hpre as [|r pre Hr _ IH]; cbn [app].
  - by rewrite firstBearer_cons, Hreq.
  - by rewrite firstBearer_cons, Hr.
Qed.

(** ** Resolution failures *)

Lemma derivePolicy_lacksBearer (o : MapOrder) (root : openapiRoot)
    (op : operation) :
  Fair o → lacksBearer root op →
  derivePolicy o root op = (AuthPolicy_zero, Some errNoBearer).
Proof.
  intros Hfair (req & sec & Heff & Hnone).
  rewrite derivePolicy_spec, Heff by done.
  apply firstBearer_None in Hnone. by rewrite Hnone.
Qed.

Lemma derivePolicy_cases (o : MapOrder) (root : openapiRoot) (op : operation) :
  Fair o →
  (lacksBearer root op ∧
   derivePolicy o root op = (AuthPolicy_zero, Some errNoBearer)) ∨
  (¬ lacksBearer root op ∧ ∃ policy, derivePolicy o root op = (policy, None)).
Proof.
  intros Hfair. rewrite derivePolicy_spec by done.
  destruct (effectiveSecurity root op) as [[|req sec]|] eqn:Heff.
  - right. split; [|by eexists]. intros (? & ? & ? & _). congruence.
  - destruct (firstBearer (req :: sec)) as [tokens|] eqn:Hfirst.
    + right. split; [|by eexists].
      intros (req' & sec' & Heff' & Hnone%firstBearer_None). congruence.
    + left. split; [|done]. exists req, sec. split; [done |].
      by apply firstBearer_None.
  - right. split; [|by eexists]. intros (? & ? & ? & _). congruence.
Qed.

(** ** The loops of ParseConfig as one loop over the visits *)

Lemma runVisits_app (o : MapOrder) (root : openapiRoot)
    (vs1 vs2 : list (RouteKey * operation))
    (policies : gmap RouteKey AuthPolicy) :
  runVisits o root (vs1 ++ vs2) policies =
    match runVisits o root vs1 policies with
    | (policies', Some err) => (policies', Some err)
    | (policies', None) => runVisits o root vs2 policies'
    end.
Proof.
  revert policies. induction vs1 as [|[k op] vs1 IH]; intros policies; [done |].
  cbn. destruct (derivePolicy o root op) as [policy [err|]]; [done |].
  apply IH.
Qed.

Lemma rangeOperations_visits (o : MapOrder) (root : openapiRoot)
    (rawPath : string) (ops : list (string * ptr operation))
    (policies : gmap RouteKey AuthPolicy) :
  rangeOperations o root rawPath ops policies =
    runVisits o root (opVisits rawPath ops) policies.
Proof.
  revert policies.
  induction ops as [|[method [op|]] ops IH]; intros policies; cbn; [done | |].
  - destruct (derivePolicy o root op) as [policy [err|]]; [done |]. apply IH.
  - apply IH.
Qed.

Lemma rangePaths_visits (o : MapOrder) (root : openapiRoot)
    (items : list (string * ptr pathItem))
    (policies : gmap RouteKey AuthPolicy) :
  rangePaths o root items policies =
    runVisits o root (pathVisits o items) policies.
Proof.
  revert policies.
  induction items as [|[rawPath [item|]] items IH]; intros policies; [done | |].
  - cbn [rangePaths]. unfold pathVisits. cbn [mbind list_bind].
    rewrite runVisits_app, rangeOperations_visits.
    destruct (runVisits o root _ policies) as [policies' [err|]]; [done |].
    apply IH.
  - cbn [rangePaths]. apply IH.
Qed.

(** ** The visits of a fair order are the declared operations *)

Lemma elem_of_opVisits (rawPath : string) (ops : list (string * ptr operation))
    (k : RouteKey) (op : operation) :
  (k, op) ∈ opVisits rawPath ops ↔
  Path k = rawPath ∧ (Method k, Some op) ∈ ops.
Proof.
  unfold opVisits. rewrite list_elem_of_omap. split.
  - intros ([method [op'|]] & Hin & Heq); cbn in Heq; [|done].
    by injection Heq as <- <-.
  - intros [<- Hin]. exists (Method k, Some op). split; [done |].
    cbn. by destruct k.
Qed.

Lemma elem_of_pathVisits (o : MapOrder) (root : openapiRoot)
    (k : RouteKey) (op : operation) :
  Fair o →
  (k, op) ∈ pathVisits o (range_paths o (Paths root)) ↔ declaredAt root k op.
Proof.
  intros (_ & Hops & Hpaths). unfold pathVisits, declaredAt.
  rewrite list_elem_of_bind. split.
  - intros ([rawPath [item|]] & Hin & Hitem); [|by apply elem_of_nil in Hin].
    apply elem_of_opVisits in Hin as [Hpath Hin].
    rewrite Hops in Hin. rewrite Hpaths in Hitem.
    apply elem_of_map_to_list in Hin, Hitem.
    exists item. by rewrite Hpath.
  - intros (item & Hitem & Hop). exists (Path k, Some item). split.
    + apply elem_of_opVisits. split; [done |].
      rewrite Hops. by apply elem_of_map_to_list.
    + rewrite Hpaths. by apply elem_of_map_to_list.
Qed.

Lemma declaredAt_functional (root : openapiRoot) (k : RouteKey)
    (op1 op2 : operation) :
  declaredAt root k op1 → declaredAt root k op2 → op1 = op2.
Proof. intros (i1 & H1 & Ho1) (i2 & H2 & Ho2). congruence. Qed.

(** ** What the loop computes *)

(** A run without error resolves every visit. *)
Lemma runVisits_None_inv (o : MapOrder) (root : openapiRoot)
    (vs : list (RouteKey * operation)) (acc m : gmap RouteKey AuthPolicy) :
  runVisits o root vs acc = (m, None) →
  Forall (λ v, ∃ policy, derivePolicy o root v.2 = (policy, None)) vs.
Proof.
  revert acc. induction vs as [|[k op] vs IH]; intros acc Hrun; [done |].
  cbn in Hrun. destruct (derivePolicy o root op) as [policy [err|]] eqn:Hop;
    [done |].
  constructor; [by exists policy | by eapply IH].
Qed.

Lemma runVisits_lookup (o : MapOrder) (root : openapiRoot)
    (vs : list (RouteKey * operation)) (acc m : gmap RouteKey AuthPolicy) :
  (∀ k op1 op2, (k, op1) ∈ vs → (k, op2) ∈ vs → op1 = op2) →
  runVisits o root vs acc = (m, None) →
  (∀ k op, (k, op) ∈ vs → m !! k = Some (derivePolicy o root op).1) ∧
  (∀ k, k ∉ vs.*1 → m !! k = acc !! k).
Proof.
  revert acc. induction vs as [|[k0 op0] vs IH]; intros acc Hfun Hrun.
  - injection Hrun as <-. split; [|done]. intros k op Hin.
    by apply elem_of_nil in Hin.
  - cbn in Hrun.
    destruct (derivePolicy o root op0) as [p0 [err|]] eqn:Hop0; [done |].
    destruct (IH (<[k0:=p0]> acc)) as [Hin Hout]; [|done |].
    { intros k op1 op2 H1 H2. apply (Hfun k); by right. }
    assert (m !! k0 = Some p0) as Hk0.
    { destruct (decide (k0 ∈ vs.*1)) as [Hk|Hk].
      - apply list_elem_of_fmap in Hk as ([k op] & -> & Hk). cbn in *.
        assert (op = op0) as -> by (apply (Hfun k); [by right | left]).
        by rewrite (Hin k op0 Hk), Hop0.
      - by rewrite (Hout k0 Hk), lookup_insert_eq. }
    split.
    + intros k op [[= -> ->] | Hk]%elem_of_cons; [by rewrite Hop0 | by apply Hin].
    + intros k [Hne Hk]%not_elem_of_cons. cbn in Hne.
      by rewrite (Hout k Hk), lookup_insert_ne.
Qed.

(** The loop stops at the first visit whose resolution fails, and returns
    its error. *)
Lemma runVisits_first_failure (o : MapOrder) (root : openapiRoot)
    (pre : list (RouteKey * operation)) (k : RouteKey) (op : operation)
    (post : list (RouteKey * operation)) (acc : gmap RouteKey AuthPolicy) :
  Fair o →
  Forall (λ v, ¬ lacksBearer root v.2) pre →
  lacksBearer root op →
  ∃ m, runVisits o root (pre ++ (k, op) :: post) acc
       = (m, Some (errDerive k)).
Proof.
  intros Hfair Hpre Hbad. revert acc.
  induction Hpre as [|[k' op'] pre Hok _ IH]; intros acc; cbn.
  - rewrite (derivePolicy_lacksBearer o root op Hfair Hbad). by exists acc.
  - destruct (derivePolicy_cases o root op' Hfair) as [[Hbad' _] | [_ [p ->]]];
      [done |].
    apply IH.
Qed.

(** Either every visit resolves and the loop ends without error, or the
    loop stops at the first visit whose resolution fails. *)
Lemma runVisits_result (o : MapOrder) (root : openapiRoot)
    (vs : list (RouteKey * operation)) (acc : gmap RouteKey AuthPolicy) :
  Fair o →
  (Forall (λ v, ¬ lacksBearer root v.2) vs ∧
   ∃ m, runVisits o root vs acc = (m, None)) ∨
  (∃ pre k op post m,
     vs = (pre ++ (k, op) :: post)%list ∧
     Forall (λ v, ¬ lacksBearer root v.2) pre ∧
     lacksBearer root op ∧
     runVisits o root vs acc = (m, Some (errDerive k))).
Proof.
  intros Hfair. revert acc. induction vs as [|[k op] vs IH]; intros acc.
  - left. split; [done | by eexists].
  - cbn [runVisits].
    destruct (derivePolicy_cases o root op Hfair) as [[Hbad ->] | [Hok [p ->]]].
    + right. exists [], k, op, vs, acc. by repeat split.
    + destruct (IH (<[k:=p]> acc))
        as [[Hall [m Hm]] | (pre & k' & op' & post & m & -> & Hpre & Hbad & Hm)].
      * left. split; [by constructor | by exists m].
      * right. exists ((k, op) :: pre), k', op', post, m.
        repeat split; [by constructor | done | done].
Qed.

Lemma tag_intro (i : nat) (tag : string) (field : pathItem → ptr operation)
    (item : pathItem) (method : string) (op : operation) :
  pathItem_tags !! i = Some (tag, field) →
  ToUpper tag = method →
  field item = Some op →
  ∃ tag field, (tag, field) ∈ pathItem_tags ∧ ToUpper tag = method ∧
               field item = Some op.
Proof.
  intros Hi Hup Hf. exists tag, field. split; [|done].
  by apply list_elem_of_lookup_2 in Hi.
Qed.

Lemma Operations_lookup (item : pathItem) (method : string) (op : operation) :
  Operations item !! method = Some (Some op) ↔
  ∃ tag field, (tag, field) ∈ pathItem_tags ∧ ToUpper tag = method ∧
               field item = Some op.
Proof.
  split.
  - unfold Operations. intros Hop.
    destruct item as [g po pu d pa o h].
    cbn [Get Post Put Delete Patch Options Head] in Hop.
    destruct g, po, pu, d, pa, o, h;
      repeat match type of Hop with
        | <[_:=_]> _ !! _ = Some _ =>
            apply lookup_insert_Some in Hop as [[<- [= <-]] | [_ Hop]]
        end;
      try (by rewrite lookup_empty in Hop);
      first [ by eapply (tag_intro 0) | by eapply (tag_intro 1)
            | by eapply (tag_intro 2) | by eapply (tag_intro 3)
            | by eapply (tag_intro 4) | by eapply (tag_intro 5)
            | by eapply (tag_intro 6) ].
  - intros (tag & field & Hin & <- & Hfield). unfold pathItem_tags in Hin.
    destruct item as [g po pu d pa o h].
    repeat (apply elem_of_cons in Hin as [[= -> ->] | Hin]);
      [..| by apply elem_of_nil in Hin];
      destruct g, po, pu, d, pa, o, h; cbn in Hfield; try discriminate;
      injection Hfield as ->; by vm_compute.
Qed.

(** ** The declared operations and their keys *)

Lemma elem_of_itemOps (rawPath : string) (item : ptr pathItem)
    (d : string * string * operation) :
  d ∈ itemOps rawPath item ↔
  ∃ it field, item = Some it ∧ (d.1.1, field) ∈ pathItem_tags ∧
              field it = Some d.2 ∧ d.1.2 = rawPath.
Proof.
  destruct item as [it|]; cbn [itemOps].
  - rewrite list_elem_of_omap. split.
    + intros ([tag field] & Hin & Hd). exists it, field.
      destruct (field it) as [op|] eqn:Hop; [|done].
      cbn in Hd. injection Hd as <-. by cbn.
    + intros (it' & field & [= <-] & Hin & Hop & <-).
      exists (d.1.1, field). split; [done |]. rewrite Hop. cbn.
      by destruct d as [[] ?].
  - split; [intros []%elem_of_nil | by intros (? & ? & ? & _)].
Qed.

Lemma elem_of_declaredOps (root : openapiRoot)
    (d : string * string * operation) :
  d ∈ declaredOps root ↔
  ∃ item field, Paths root !! d.1.2 = Some (Some item) ∧
                (d.1.1, field) ∈ pathItem_tags ∧ field item = Some d.2.
Proof.
  unfold declaredOps. rewrite list_elem_of_bind. split.
  - intros ([rawPath item] & (it & field & -> & Hin & Hop & <-)%elem_of_itemOps
            & Hitem%elem_of_map_to_list).
    by exists it, field.
  - intros (item & field & Hitem & Hin & Hop).
    exists (d.1.2, Some item). split.
    + apply elem_of_itemOps. by exists item, field.
    + by apply elem_of_map_to_list.
Qed.

Lemma declaredAt_declaredOps (root : openapiRoot) (k : RouteKey)
    (op : operation) :
  declaredAt root k op ↔
  ∃ d, d ∈ declaredOps root ∧ routeKeyOf d = k ∧ d.2 = op.
Proof.
  unfold declaredAt. split.
  - intros (item & Hitem & (tag & field & Hin & Hup & Hop)%Operations_lookup).
    exists (tag, Path k, op). split; [|split; [|done]].
    + apply elem_of_declaredOps. by exists item, field.
    + unfold routeKeyOf. cbn. rewrite Hup. by destruct k.
  - intros (d & (item & field & Hitem & Hin & Hop)%elem_of_declaredOps & <- & <-).
    exists item. split; [done |]. apply Operations_lookup.
    by exists d.1.1, field.
Qed.

Lemma fmap_bind {A B C : Type} (f : B → C) (g : A → list B) (l : list A) :
  f <$> (l ≫= g) = l ≫= (λ x, f <$> g x).
Proof.
  induction l as [|x l IH]; [done |].
  cbn [mbind list_bind]. by rewrite fmap_app, IH.
Qed.

Lemma NoDup_itemOps_keys (rawPath : string) (item : ptr pathItem) :
  NoDup (routeKeyOf <$> itemOps rawPath item).
Proof.
  destruct item as [[g po pu d pa o h]|]; [|apply NoDup_nil_2].
  destruct g, po, pu, d, pa, o, h; vm_compute;
    repeat (apply NoDup_cons_2;
            [rewrite ?not_elem_of_cons; repeat split;
             try discriminate; apply not_elem_of_nil |]);
    apply NoDup_nil_2.
Qed.

Lemma NoDup_declaredOps_keys (root : openapiRoot) :
  NoDup (routeKeyOf <$> declaredOps root).
Proof.
  unfold declaredOps. rewrite fmap_bind. apply NoDup_bind.
  - intros [p1 i1] [p2 i2] k H1 H2 Hk1 Hk2. cbn in Hk1, Hk2.
    apply list_elem_of_fmap in Hk1 as (d1 & -> & Hd1).
    apply list_elem_of_fmap in Hk2 as (d2 & Hk & Hd2).
    apply elem_of_itemOps in Hd1 as (_ & _ & _ & _ & _ & Hp1).
    apply elem_of_itemOps in Hd2 as (_ & _ & _ & _ & _ & Hp2).
    assert (p1 = p2) as <-.
    { rewrite <- Hp1, <- Hp2. by injection Hk. }
    apply elem_of_map_to_list in H1, H2. congruence.
  - intros [p i] _. apply NoDup_itemOps_keys.
  - apply NoDup_map_to_list.
Qed.

(** ** ParseConfig *)

Section ParseConfigFacts.

Context (o : MapOrder).
Context (ReadFile : string → string * ptr error).
Context (Unmarshal : string → openapiRoot → openapiRoot * ptr error).

Lemma ParseConfig_loads (path : string) (root : openapiRoot) :
  loads ReadFile Unmarshal path root →
  ParseConfig o ReadFile Unmarshal path =
    match runVisits o root (pathVisits o (range_paths o (Paths root))) ∅ with
    | (_, Some err) => (None, Some err)
    | (policies, None) => (Some {| Policies := policies |}, None)
    end.
Proof.
  intros (data & Hread & Hdecode). unfold ParseConfig.
  rewrite Hread, Hdecode, rangePaths_visits.
  by destruct (runVisits _ _ _ _) as [policies [err|]].
Qed.

(** The two shapes of a result. *)
Lemma ParseConfig_shape (path : string) :
  (∃ cfg root, ParseConfig o ReadFile Unmarshal path = (Some cfg, None) ∧
     loads ReadFile Unmarshal path root ∧
     runVisits o root (pathVisits o (range_paths o (Paths root))) ∅
       = (Policies cfg, None)) ∨
  (∃ err, ParseConfig o ReadFile Unmarshal path = (None, Some err)).
Proof.
  unfold ParseConfig.
  destruct (ReadFile path) as [data [err|]] eqn:Hread; [right; by eexists |].
  destruct (Unmarshal data openapiRoot_zero) as [root [err|]] eqn:Hdecode;
    [right; by eexists |].
  rewrite rangePaths_visits.
  destruct (runVisits _ _ _ _) as [policies [err|]] eqn:Hrun;
    [right; by eexists |].
  left. exists {| Policies := policies |}, root.
  split; [done |]. split; [by exists data | done].
Qed.

Lemma loads_functional (path : string) (root1 root2 : openapiRoot) :
  loads ReadFile Unmarshal path root1 →
  loads ReadFile Unmarshal path root2 → root1 = root2.
Proof. intros (d1 & H1 & H1') (d2 & H2 & H2'). congruence. Qed.

(** On success, the resolved mapping holds exactly the policies of the
    declared operations. *)
Lemma ParseConfig_lookup (path : string) (root : openapiRoot) (cfg : Config) :
  Fair o →
  loads ReadFile Unmarshal path root →
  ParseConfig o ReadFile Unmarshal path = (Some cfg, None) →
  ∀ k policy,
    Policies cfg !! k = Some policy ↔
    ∃ op, declaredAt root k op ∧ derivePolicy o root op = (policy, None).
Proof.
  intros Hfair Hloads Hrun k policy.
  rewrite (ParseConfig_loads path root Hloads) in Hrun.
  destruct (runVisits _ _ _ _) as [policies [err|]] eqn:Hvisits; [done |].
  injection Hrun as <-. cbn [Policies].
  pose proof (runVisits_None_inv _ _ _ _ _ Hvisits) as Hall.
  apply runVisits_lookup in Hvisits as [Hin Hout].
  2:{ intros k' op1 op2 H1 H2.
      apply (elem_of_pathVisits o root _ _ Hfair) in H1, H2.
      by eapply declaredAt_functional. }
  rewrite Forall_forall in Hall. split.
  - intros Hk.
    destruct (decide (k ∈ (pathVisits o (range_paths o (Paths root))).*1))
      as [Hvis|Hvis].
    + apply list_elem_of_fmap in Hvis as ([k' op] & -> & Hvis). cbn in *.
      exists op. split; [by apply (elem_of_pathVisits o root _ _ Hfair) in Hvis |].
      destruct (Hall _ Hvis) as [p Hp]. cbn in Hp.
      rewrite (Hin _ _ Hvis), Hp in Hk. cbn in Hk. congruence.
    + rewrite (Hout k Hvis), lookup_empty in Hk. done.
  - intros (op & Hdecl & Hop).
    apply (elem_of_pathVisits o root _ _ Hfair) in Hdecl.
    by rewrite (Hin _ _ Hdecl), Hop.
Qed.

(** When the resolution of some declared operation fails, the run returns
    the error of the first such operation the loops reach. *)
Lemma ParseConfig_failure (path : string) (root : openapiRoot) :
  Fair o →
  loads ReadFile Unmarshal path root →
  (∃ k op, declaredAt root k op ∧ lacksBearer root op) →
  ∃ pre k op post,
    pathVisits o (range_paths o (Paths root)) = (pre ++ (k, op) :: post)%list ∧
    Forall (λ v, ¬ lacksBearer root v.2) pre ∧
    declaredAt root k op ∧ lacksBearer root op ∧
    ParseConfig o ReadFile Unmarshal path = (None, Some (errDerive k)).
Proof.
  intros Hfair Hloads (k & op & Hdecl & Hbad).
  rewrite (ParseConfig_loads path root Hloads).
  destruct (runVisits_result o root
              (pathVisits o (range_paths o (Paths root))) ∅ Hfair)
    as [[Hall _] | (pre & k' & op' & post & m & Hvs & Hpre & Hbad' & ->)].
  - rewrite Forall_forall in Hall.
    apply (elem_of_pathVisits o root _ _ Hfair) in Hdecl.
    by destruct (Hall _ Hdecl).
  - exists pre, k', op', post. repeat split; [done.. | | done].
    apply (elem_of_pathVisits o root _ _ Hfair). rewrite Hvs.
    apply elem_of_app. right. left.
Qed.

End ParseConfigFacts.

(** ** The invariant of resolved policies *)

Lemma classify_RequireAuth (tokens : list string) (policy : AuthPolicy) :
  RequireAuth (classify tokens policy) = RequireAuth policy.
Proof.
  revert policy. induction tokens as [|s tokens IH]; intros policy; [done |].
  cbn. destruct (isRole s); by rewrite IH.
Qed.

Lemma scanSchemes_RequireAuth (entries : list (string * list string))
    (policy p : AuthPolicy) :
  scanSchemes entries policy = Some p → RequireAuth p = true.
Proof.
  induction entries as [|[scheme scopes] entries IH]; cbn; [done |].
  destruct (String.eqb scheme "BearerAuth"); [|done].
  intros [= <-]. by rewrite classify_RequireAuth.
Qed.

Lemma scanRequirements_RequireAuth (o : MapOrder)
    (sec : list securityRequirement) (policy p : AuthPolicy) :
  scanRequirements o sec policy = (p, None) → RequireAuth p = true.
Proof.
  induction sec as [|req sec IH]; cbn; [done |].
  destruct (scanSchemes _ policy) as [q|] eqn:Hscan; [|done].
  intros [= <-]. by eapply scanSchemes_RequireAuth.
Qed.

Lemma derivePolicy_publicIsEmpty (o : MapOrder) (root : openapiRoot)
    (op : operation) (p : AuthPolicy) :
  derivePolicy o root op = (p, None) → publicIsEmpty p.
Proof.
  unfold derivePolicy, publicIsEmpty.
  destruct (match op_Security op with Some _ => _ | None => _ end)
    as [[|req sec]|].
  - by intros [= <-].
  - intros Hscan%scanRequirements_RequireAuth. congruence.
  - by intros [= <-].
Qed.

Lemma rangeOperations_invariant (o : MapOrder) (root : openapiRoot)
    (rawPath : string) (ops : list (string * ptr operation))
    (acc m : gmap RouteKey AuthPolicy) (err : ptr error) :
  map_Forall (λ _, publicIsEmpty) acc →
  rangeOperations o root rawPath ops acc = (m, err) →
  map_Forall (λ _, publicIsEmpty) m.
Proof.
  revert acc. induction ops as [|[method [op|]] ops IH]; intros acc Hacc; cbn.
  - by intros [= <- _].
  - destruct (derivePolicy o root op) as [p [e|]] eqn:Hop.
    + by intros [= <- _].
    + apply IH. apply map_Forall_insert_2; [|done].
      by eapply derivePolicy_publicIsEmpty.
  - by apply IH.
Qed.

Lemma rangePaths_invariant (o : MapOrder) (root : openapiRoot)
    (items : list (string * ptr pathItem))
    (acc m : gmap RouteKey AuthPolicy) (err : ptr error) :
  map_Forall (λ _, publicIsEmpty) acc →
  rangePaths o root items acc = (m, err) →
  map_Forall (λ _, publicIsEmpty) m.
Proof.
  revert acc.
  induction items as [|[rawPath [item|]] items IH]; intros acc Hacc; cbn.
  - by intros [= <- _].
  - destruct (rangeOperations _ _ _ _ acc) as [acc' [e|]] eqn:Hops.
    + intros [= <- _]. by eapply rangeOperations_invariant.
    + apply IH. by eapply rangeOperations_invariant.
  - by apply IH.
Qed.

(** ** Coverage of the declared operations *)

(** A successful run resolved every declared operation and holds its
    policy under its key. *)
Lemma ParseConfig_covers (o : MapOrder)
    (ReadFile : string → string * ptr error)
    (Unmarshal : string → openapiRoot → openapiRoot * ptr error)
    (path : string) (root : openapiRoot) (cfg : Config)
    (d : string * string * operation) :
  Fair o →
  loads ReadFile Unmarshal path root →
  ParseConfig o ReadFile Unmarshal path = (Some cfg, None) →
  d ∈ declaredOps root →
  ∃ policy, derivePolicy o root d.2 = (policy, None) ∧
            Policies cfg !! routeKeyOf d = Some policy.
Proof.
  intros Hfair Hloads Hrun Hd.
  assert (declaredAt root (routeKeyOf d) d.2) as Hdecl.
  { apply declaredAt_declaredOps. by exists d. }
  destruct (derivePolicy o root d.2) as [policy [err|]] eqn:Hop.
  - exfalso.
    rewrite (ParseConfig_loads o _ _ path root Hloads) in Hrun.
    destruct (runVisits _ _ _ _) as [m [e|]] eqn:Hvs; [done |].
    apply runVisits_None_inv in Hvs. rewrite Forall_forall in Hvs.
    apply (elem_of_pathVisits o root _ _ Hfair) in Hdecl.
    destruct (Hvs _ Hdecl) as [p Hp]. cbn in Hp. congruence.
  - exists policy. split; [done |].
    apply (ParseConfig_lookup o ReadFile Unmarshal path root cfg
             Hfair Hloads Hrun).
    by exists d.2.
Qed.

(** ** Documents that agree up to the tokens of other schemes *)

Lemma firstBearer_sim (s1 s2 : list securityRequirement) :
  Forall2 reqSim s1 s2 → firstBearer s1 = firstBearer s2.
Proof.
  induction 1 as [|r1 r2 s1 s2 [_ Hr] _ IH]; [done |].
  by rewrite !firstBearer_cons, Hr, IH.
Qed.

Lemma effectiveSecurity_sim (d1 d2 : openapiRoot) (op1 op2 : operation) :
  secSim (Security d1) (Security d2) → opSim op1 op2 →
  secSim (effectiveSecurity d1 op1) (effectiveSecurity d2 op2).
Proof.
  unfold opSim, effectiveSecurity. intros Hroot Hop.
  destruct Hop as [sec1 sec2 Hsec|]; [by constructor | done].
Qed.

Lemma derivePolicy_sim (o1 o2 : MapOrder) (d1 d2 : openapiRoot)
    (op1 op2 : operation) :
  Fair o1 → Fair o2 →
  secSim (Security d1) (Security d2) → opSim op1 op2 →
  derivePolicy o1 d1 op1 = derivePolicy o2 d2 op2.
Proof.
  intros H1 H2 Hroot Hop. rewrite !derivePolicy_spec by done.
  destruct (effectiveSecurity_sim d1 d2 op1 op2 Hroot Hop)
    as [sec1 sec2 Hsec|]; [|done].
  rewrite (firstBearer_sim sec1 sec2 Hsec).
  by destruct Hsec.
Qed.

Lemma declaredOps_sim (d1 d2 : openapiRoot)
    (d : string * string * operation) :
  rootSim d1 d2 → d ∈ declaredOps d1 →
  ∃ op2, (d.1.1, d.1.2, op2) ∈ declaredOps d2 ∧ opSim d.2 op2.
Proof.
  intros [_ Hpaths] (item1 & field & Hitem & Htag & Hop)%elem_of_declaredOps.
  specialize (Hpaths d.1.2). rewrite Hitem in Hpaths.
  inversion Hpaths as [x1 x2 Hx Hx1 Hitem2|]; subst.
  inversion Hx as [i1 item2 Hsim|]; subst. symmetry in Hitem2.
  unfold itemSim in Hsim. rewrite Forall_forall in Hsim.
  specialize (Hsim _ Htag). cbn in Hsim. rewrite Hop in Hsim.
  destruct (field item2) as [op2|] eqn:Hop2; [|by inversion Hsim].
  exists op2. split.
  - apply elem_of_declaredOps. by exists item2, field.
  - by inversion Hsim.
Qed.

Lemma reqSim_sym (r1 r2 : securityRequirement) : reqSim r1 r2 → reqSim r2 r1.
Proof. by intros [Hdom Hreq]. Qed.

Lemma secSim_sym (s1 s2 : option (list securityRequirement)) :
  secSim s1 s2 → secSim s2 s1.
Proof.
  intros [l1 l2 Hl|]; constructor.
  induction Hl; constructor; [by apply reqSim_sym | done].
Qed.

Lemma itemSim_sym (i1 i2 : pathItem) : itemSim i1 i2 → itemSim i2 i1.
Proof.
  unfold itemSim. rewrite !Forall_forall. intros Hsim [tag field] Hin.
  specialize (Hsim _ Hin). cbn in Hsim.
  destruct Hsim as [o1 o2 Hop|]; constructor. by apply secSim_sym.
Qed.

Lemma rootSim_sym (d1 d2 : openapiRoot) : rootSim d1 d2 → rootSim d2 d1.
Proof.
  intros [Hsec Hpaths]. split; [by apply secSim_sym |].
  intros p. specialize (Hpaths p).
  destruct Hpaths as [x1 x2 Hx|]; constructor.
  destruct Hx as [i1 i2 Hsim|]; constructor. by apply itemSim_sym.
Qed.

(** The run succeeds exactly when no declared operation lacks the bearer
    scheme. *)
Lemma ParseConfig_succeeds_iff (o : MapOrder)
    (ReadFile : string → string * ptr error)
    (Unmarshal : string → openapiRoot → openapiRoot * ptr error)
    (path : string) (root : openapiRoot) :
  Fair o →
  loads ReadFile Unmarshal path root →
  (∃ cfg, ParseConfig o ReadFile Unmarshal path = (Some cfg, None)) ↔
  (∀ d, d ∈ declaredOps root →
        ∃ policy, derivePolicy o root d.2 = (policy, None)).
Proof.
  intros Hfair Hloads. split.
  - intros [cfg Hrun] d Hd.
    destruct (ParseConfig_covers o ReadFile Unmarshal path root cfg d
                Hfair Hloads Hrun Hd) as (policy & Hop & _).
    by exists policy.
  - intros Hall.
    destruct (ParseConfig_shape o ReadFile Unmarshal path)
      as [(cfg & _ & Hrun & _) | [err Herr]]; [by exists cfg |].
    exfalso. rewrite (ParseConfig_loads o _ _ path root Hloads) in Herr.
    destruct (runVisits_result o root
                (pathVisits o (range_paths o (Paths root))) ∅ Hfair)
      as [[_ [m Hm]] | (pre & k & op & post & m & Hvs & _ & Hbad & _)].
    + by rewrite Hm in Herr.
    + assert (declaredAt root k op) as Hdecl.
      { apply (elem_of_pathVisits o root _ _ Hfair). rewrite Hvs.
        apply elem_of_app. right. left. }
      apply declaredAt_declaredOps in Hdecl as (d & Hd & _ & <-).
      destruct (Hall d Hd) as [policy Hop].
      rewrite (derivePolicy_lacksBearer o root d.2 Hfair Hbad) in Hop.
      done.
Qed.

(** * The claims *)

(** C1, as the code has it.  An operation whose effective security list
    is non-empty and names the bearer scheme nowhere does not resolve to
    a public policy:
    [derivePolicy] returns the error, the loop body of [ParseConfig]
    returns it wrapped with the method and the path of the operation, and
    the run as a whole returns no [Config] but such an error: that of the
    first operation of this kind the loops reach, hence that of this
    operation whenever the operations visited before it resolve, and in
    particular whenever no other operation of the document fails. *)
Theorem C1_missing_bearer_is_an_error (o : MapOrder)
    (ReadFile : string → string * ptr error)
    (Unmarshal : string → openapiRoot → openapiRoot * ptr error)
    (path : string) (root : openapiRoot)
    (d : string * string * operation) :
  Fair o →
  loads ReadFile Unmarshal path root →
  d ∈ declaredOps root →
  lacksBearer root d.2 →
  derivePolicy o root d.2 = (AuthPolicy_zero, Some errNoBearer) ∧
  (∀ rest acc,
     rangeOperations o root d.1.2 ((ToUpper d.1.1, Some d.2) :: rest) acc
     = (acc, Some (errDerive (routeKeyOf d)))) ∧
  Error (errDerive (routeKeyOf d)) =
    ("derive policy for " ++ ToUpper d.1.1 ++ " " ++ d.1.2) ++
    ": security section present but no BearerAuth requirement found" ∧
  Unwrap (errDerive (routeKeyOf d)) = Some errNoBearer ∧
  (∃ pre k op post,
     pathVisits o (range_paths o (Paths root)) = (pre ++ (k, op) :: post)%list ∧
     Forall (λ v, ¬ lacksBearer root v.2) pre ∧
     declaredAt root k op ∧ lacksBearer root op ∧
     ParseConfig o ReadFile Unmarshal path = (None, Some (errDerive k))) ∧
  (∀ pre post,
     pathVisits o (range_paths o (Paths root))
     = (pre ++ (routeKeyOf d, d.2) :: post)%list →
     Forall (λ v, ¬ lacksBearer root v.2) pre →
     ParseConfig o ReadFile Unmarshal path
     = (None, Some (errDerive (routeKeyOf d)))) ∧
  ((∀ d', d' ∈ declaredOps root → lacksBearer root d'.2 →
          routeKeyOf d' = routeKeyOf d) →
   ParseConfig o ReadFile Unmarshal path
   = (None, Some (errDerive (routeKeyOf d)))).
Proof.
  intros Hfair Hloads Hd Hbad.
  pose proof (derivePolicy_lacksBearer o root d.2 Hfair Hbad) as Hderive.
  assert (declaredAt root (routeKeyOf d) d.2) as Hdecl.
  { apply declaredAt_declaredOps. by exists d. }
  destruct (ParseConfig_failure o ReadFile Unmarshal path root Hfair Hloads)
    as (pre & k & op & post & Hvs & Hpre & Hk & Hop & Hrun).
  { by exists (routeKeyOf d), d.2. }
  split; [done |]. split.
  { intros rest acc. cbn [rangeOperations]. by rewrite Hderive. }
  split; [reflexivity |]. split; [reflexivity |]. split.
  { by exists pre, k, op, post. }
  split.
  { intros pre' post' Hvs' Hpre'.
    rewrite (ParseConfig_loads o _ _ path root Hloads), Hvs'.
    by destruct (runVisits_first_failure o root pre' (routeKeyOf d) d.2 post'
                   ∅ Hfair Hpre' Hbad) as [m ->]. }
  intros Honly. rewrite Hrun. do 3 f_equal.
  apply declaredAt_declaredOps in Hk as (d' & Hd' & <- & <-).
  by apply Honly.
Qed.

Lemma C1_witness :
  ParseConfig keyOrder readAny (decodeTo mixed_yaml) "openapi.yaml"
  = (None,
     Some (wrapError
             ("derive policy for GET /keys: " ++
              "security section present but no BearerAuth requirement found")
             errNoBearer)).
Proof.
  refine (proj2 (proj2 (proj2 (proj2 (proj2 (proj2
    (C1_missing_bearer_is_an_error keyOrder readAny (decodeTo mixed_yaml)
       "openapi.yaml" mixed_yaml
       ("get", "/keys", mkOperation (Some [apiKey ["read"]]))
       Fair_keyOrder _ _ _)))))) _).
  - by exists "openapi.yaml".
  - apply elem_of_declaredOps. eexists _, Get. split; [|split].
    + by vm_compute.
    + left.
    + done.
  - exists (apiKey ["read"]), []. split; [done |].
    repeat constructor.
  - intros d' (item & field & Hitem & Htag & Hop)%elem_of_declaredOps
           (req & sec & Heff & Hnone).
    destruct d' as [[tag' p'] op']. cbn in *.
    unfold mixed_yaml in Hitem. cbn [Paths] in Hitem.
    apply lookup_insert_Some in Hitem as [[<- [= <-]] | [_ Hitem]].
    + unfold pathItem_tags in Htag.
      repeat (apply elem_of_cons in Htag as [[= -> ->] | Htag]);
        try done; by apply elem_of_nil in Htag.
    + apply lookup_insert_Some in Hitem as [[<- [= <-]] | [_ Hitem]];
        [|by rewrite lookup_empty in Hitem].
      unfold pathItem_tags in Htag.
      repeat (apply elem_of_cons in Htag as [[= -> ->] | Htag]);
        try done; [|by apply elem_of_nil in Htag].
      cbn in Hop. injection Hop as <-. done.
Defined.

(** C1, read literally, fails: in a document with two operations that
    lack the bearer scheme, the run returns the error of the one it
    reaches first, and so not, for the other, an error with that
    operation's method and path. *)
Lemma C1_counterexample :
  let d := ("get", "/b", mkOperation (Some [apiKey []])) in
  Fair keyOrder ∧
  loads readAny (decodeTo twoBad_yaml) "openapi.yaml" twoBad_yaml ∧
  d ∈ declaredOps twoBad_yaml ∧
  lacksBearer twoBad_yaml d.2 ∧
  ParseConfig keyOrder readAny (decodeTo twoBad_yaml) "openapi.yaml"
  = (None, Some (errDerive (mkRouteKey "GET" "/a"))) ∧
  ParseConfig keyOrder readAny (decodeTo twoBad_yaml) "openapi.yaml"
  ≠ (None, Some (errDerive (routeKeyOf d))).
Proof.
  cbv zeta. split; [by repeat split |]. split; [by exists "openapi.yaml" |].
  split; [|split; [|split]].
  - apply elem_of_declaredOps. eexists _, Get. split; [|split].
    + by vm_compute.
    + left.
    + done.
  - exists (apiKey []), []. split; [done |]. repeat constructor.
  - by vm_compute.
  - by vm_compute.
Qed.

(** C2.  The policy of an operation depends on the document only through
    the effective security list: the operation's own list when it is
    present, even empty, and the root's list otherwise.  So the root plays
    no part for an operation with a list of its own, and an operation
    without one resolves as if it declared the root's list itself.  When
    the effective list is absent or empty the operation is public: no
    authentication, no roles, no scopes.  In particular an operation with
    [security: []] is public whatever the root declares. *)
Theorem C2_effective_security_decides (o : MapOrder) (root : openapiRoot)
    (op : operation) :
  (∀ root' op',
     effectiveSecurity root' op' = effectiveSecurity root op →
     derivePolicy o root' op' = derivePolicy o root op) ∧
  (∀ sec, op_Security op = Some sec →
          effectiveSecurity root op = Some sec ∧
          ∀ root', derivePolicy o root' op = derivePolicy o root op) ∧
  (op_Security op = None →
   effectiveSecurity root op = Security root ∧
   derivePolicy o root op
   = derivePolicy o root {| op_Security := Security root |}) ∧
  (effectiveSecurity root op = None ∨ effectiveSecurity root op = Some [] →
   derivePolicy o root op
   = ({| RequireAuth := false; Roles := []; Scopes := [] |}, None)) ∧
  (∀ root', derivePolicy o root' {| op_Security := Some [] |}
            = ({| RequireAuth := false; Roles := []; Scopes := [] |}, None)).
Proof.
  assert (∀ r1 o1 r2 o2,
            effectiveSecurity r1 o1 = effectiveSecurity r2 o2 →
            derivePolicy o r1 o1 = derivePolicy o r2 o2) as Hdep.
  { intros r1 o1 r2 o2. unfold effectiveSecurity, derivePolicy.
    destruct (op_Security o1) as [sec1|], (op_Security o2) as [sec2|].
    - by intros [= ->].
    - by intros <-.
    - by intros ->.
    - by intros ->. }
  split; [intros root' op'; apply Hdep |]. split; [|split; [|split]].
  - intros sec Hsec. split; [unfold effectiveSecurity; by rewrite Hsec |].
    intros root'. apply Hdep. unfold effectiveSecurity. by rewrite Hsec.
  - intros Hnone. split; [unfold effectiveSecurity; by rewrite Hnone |].
    apply Hdep. unfold effectiveSecurity. rewrite Hnone. cbn.
    by destruct (Security root).
  - intros Heff. unfold derivePolicy. unfold effectiveSecurity in Heff.
    destruct (op_Security op) as [sec|].
    + destruct Heff as [[=] | [= ->]]. done.
    + destruct Heff as [-> | ->]; done.
  - done.
Qed.

(** An operation without a list of its own inherits the bearer
    requirement of the root. *)
Lemma C2_witness :
  derivePolicy keyOrder mixed_yaml {| op_Security := None |}
  = ({| RequireAuth := true; Roles := ["admin"]; Scopes := [] |}, None).
Proof.
  refine (eq_trans
            (proj2 (proj1 (proj2 (proj2
               (C2_effective_security_decides keyOrder mixed_yaml
                  {| op_Security := None |}))) _)) _).
  - reflexivity.
  - by vm_compute.
Defined.

(** C3, as the code has it.  The policy of a matched bearer requirement
    requires authentication; its roles are, in the order of the token
    list and with repetitions kept, what follows ["role:"] in each token
    that has something after that prefix; its scopes are the other tokens,
    verbatim, in order and with repetitions kept: among them the bare
    token ["role:"].  A token names the role [name] exactly when it is
    ["role:"] followed by the non-empty [name]. *)
Theorem C3_tokens_split_into_roles_and_scopes (o : MapOrder)
    (root : openapiRoot) (op : operation)
    (sec : list securityRequirement) (tokens : list string) :
  Fair o →
  effectiveSecurity root op = Some sec →
  firstBearer sec = Some tokens →
  derivePolicy o root op
  = ({| RequireAuth := true;
        Roles := omap roleName tokens;
        Scopes := List.filter isScope tokens |}, None) ∧
  (∀ s name, roleName s = Some name ↔
             name ≠ EmptyString ∧ s = "role:" ++ name) ∧
  (∀ s, isScope s = true ↔ roleName s = None).
Proof.
  intros Hfair Heff Hfirst. split; [|split].
  - rewrite derivePolicy_spec, Heff, Hfirst by done.
    destruct sec as [|req sec]; [done |]. done.
  - apply roleName_Some.
  - intros s. unfold isScope. by destruct (roleName s).
Qed.

Lemma C3_witness :
  derivePolicy keyOrder openapiRoot_zero
    {| op_Security := Some [bearer ["role:admin"; "vegetable:write"]] |}
  = ({| RequireAuth := true; Roles := ["admin"];
        Scopes := ["vegetable:write"] |}, None).
Proof.
  refine (proj1 (C3_tokens_split_into_roles_and_scopes keyOrder
                   openapiRoot_zero
                   {| op_Security :=
                        Some [bearer ["role:admin"; "vegetable:write"]] |}
                   [bearer ["role:admin"; "vegetable:write"]]
                   ["role:admin"; "vegetable:write"]
                   Fair_keyOrder _ _)); reflexivity.
Defined.

(** C3, read literally, fails: the token ["role:"] carries the prefix,
    and the code appends it to the scopes, not the empty name to the
    roles. *)
Lemma C3_counterexample :
  literalPolicy ["role:"]
  = {| RequireAuth := true; Roles := [EmptyString]; Scopes := [] |} ∧
  derivePolicy keyOrder openapiRoot_zero
    {| op_Security := Some [bearer ["role:"]] |}
  = ({| RequireAuth := true; Roles := []; Scopes := ["role:"] |}, None) ∧
  derivePolicy keyOrder openapiRoot_zero
    {| op_Security := Some [bearer ["role:"]] |}
  ≠ (literalPolicy ["role:"], None).
Proof. split; [|split]; [by vm_compute | by vm_compute |]. by vm_compute. Qed.

(** C4.  With a non-empty effective list, the requirement objects are
    scanned in document order: when [req] is the first object that names
    the bearer scheme, the policy requires authentication and is
    classified from the token list of [req]; the objects after [req]
    play no part, whether or not they name the bearer scheme. *)
Theorem C4_first_bearer_requirement_decides (o : MapOrder)
    (root : openapiRoot) (op : operation)
    (pre : list securityRequirement) (req : securityRequirement)
    (post : list securityRequirement) (tokens : list string) :
  Fair o →
  effectiveSecurity root op = Some (pre ++ req :: post)%list →
  Forall (λ r : securityRequirement, r !! "BearerAuth" = None) pre →
  req !! "BearerAuth" = Some tokens →
  derivePolicy o root op
  = (classify tokens {| RequireAuth := true; Roles := []; Scopes := [] |},
     None) ∧
  RequireAuth (derivePolicy o root op).1 = true ∧
  (∀ root' op' post',
     effectiveSecurity root' op' = Some (pre ++ req :: post')%list →
     derivePolicy o root' op' = derivePolicy o root op).
Proof.
  intros Hfair Heff Hpre Hreq.
  assert (∀ root' op' post',
            effectiveSecurity root' op' = Some (pre ++ req :: post')%list →
            derivePolicy o root' op'
            = (classify tokens
                 {| RequireAuth := true; Roles := []; Scopes := [] |}, None))
    as Hany.
  { intros root' op' post' Heff'.
    rewrite derivePolicy_spec, Heff' by done.
    rewrite (firstBearer_app pre req post' tokens Hpre Hreq).
    rewrite classify_bearerPolicy. by destruct pre. }
  split; [by eapply Hany |]. split.
  - rewrite (Hany root op post Heff). cbn. by rewrite classify_RequireAuth.
  - intros root' op' post' Heff'.
    by rewrite (Hany root op post Heff), (Hany root' op' post' Heff').
Qed.

Lemma C4_witness :
  derivePolicy keyOrder openapiRoot_zero
    {| op_Security :=
         Some [apiKey ["read"]; bearer ["role:admin"]; bearer ["other"]] |}
  = ({| RequireAuth := true; Roles := ["admin"]; Scopes := [] |}, None).
Proof.
  refine (proj1 (C4_first_bearer_requirement_decides keyOrder
                   openapiRoot_zero
                   {| op_Security :=
                        Some [apiKey ["read"]; bearer ["role:admin"];
                              bearer ["other"]] |}
                   [apiKey ["read"]] (bearer ["role:admin"])
                   [bearer ["other"]] ["role:admin"]
                   Fair_keyOrder _ _ _)).
  - reflexivity.
  - by repeat constructor.
  - reflexivity.
Defined.

(** C9.  A token of a matched bearer requirement is appended to the roles
    only when it is longer than five bytes and starts with ["role:"]; the
    role appended is the token without these five bytes.  Every other
    token is appended verbatim to the scopes: so the token ["role:"]
    itself and every token of at most five bytes.  No role has the empty
    name. *)
Theorem C9_role_needs_a_name (o : MapOrder) (root : openapiRoot)
    (op : operation) (sec : list securityRequirement)
    (tokens : list string) :
  Fair o →
  effectiveSecurity root op = Some sec →
  firstBearer sec = Some tokens →
  let policy := (derivePolicy o root op).1 in
  (∀ r, r ∈ Roles policy ↔
        ∃ s, s ∈ tokens ∧ (5 < String.length s)%nat ∧
             String.prefix "role:" s = true ∧
             r = substring 5 (String.length s - 5) s) ∧
  (∀ s, s ∈ Scopes policy ↔
        s ∈ tokens ∧
        ¬ ((5 < String.length s)%nat ∧ String.prefix "role:" s = true)) ∧
  ("role:" ∈ tokens → "role:" ∈ Scopes policy) ∧
  (∀ s, s ∈ tokens → (String.length s ≤ 5)%nat → s ∈ Scopes policy) ∧
  EmptyString ∉ Roles policy.
Proof.
  intros Hfair Heff Hfirst policy.
  assert (policy = bearerPolicy tokens) as ->.
  { unfold policy. rewrite derivePolicy_spec, Heff, Hfirst by done.
    by destruct sec. }
  cbn [bearerPolicy Roles Scopes].
  assert (∀ s, isScope s = true ↔
               ¬ ((5 < String.length s)%nat ∧ String.prefix "role:" s = true))
    as Hscope.
  { intros s. rewrite <- isRole_iff. unfold isScope.
    destruct (isRole s) eqn:Hs.
    - rewrite (isRole_roleName s Hs). split; [done | intros H; by destruct H].
    - by rewrite (not_isRole_roleName s Hs). }
  assert (∀ s, s ∈ List.filter isScope tokens ↔
               s ∈ tokens ∧
               ¬ ((5 < String.length s)%nat ∧ String.prefix "role:" s = true))
    as Hscopes.
  { intros s. rewrite list_elem_of_In, filter_In, <- list_elem_of_In.
    by rewrite Hscope. }
  assert (∀ r, r ∈ omap roleName tokens ↔
        ∃ s, s ∈ tokens ∧ (5 < String.length s)%nat ∧
             String.prefix "role:" s = true ∧
             r = substring 5 (String.length s - 5) s) as Hroles.
  { intros r. rewrite list_elem_of_omap. split.
    - intros (s & Hin & Hname). exists s. split; [done |].
      destruct (isRole s) eqn:Hs.
      + rewrite (isRole_roleName s Hs) in Hname. injection Hname as <-.
        by apply isRole_iff in Hs as [? ?].
      + by rewrite (not_isRole_roleName s Hs) in Hname.
    - intros (s & Hin & Hlen & Hpre & ->). exists s. split; [done |].
      apply isRole_roleName, isRole_iff. done. }
  split; [done |]. split; [done |]. split; [|split].
  - intros Hin. apply Hscopes. split; [done |]. cbn. lia.
  - intros s Hin Hlen. apply Hscopes. split; [done |]. lia.
  - intros (s & _ & Hname)%list_elem_of_omap.
    by apply roleName_Some in Hname as [? _].
Qed.

Lemma C9_witness :
  "role:" ∈ Scopes (derivePolicy keyOrder openapiRoot_zero
                      {| op_Security :=
                           Some [bearer ["role:"; "role"; "role:x"]] |}).1.
Proof.
  refine (proj1 (proj2 (proj2
    (C9_role_needs_a_name keyOrder openapiRoot_zero
       {| op_Security := Some [bearer ["role:"; "role"; "role:x"]] |}
       [bearer ["role:"; "role"; "role:x"]] ["role:"; "role"; "role:x"]
       Fair_keyOrder _ _))) _).
  - reflexivity.
  - reflexivity.
  - left.
Defined.

(** C5.  In the [Config] of a successful run, a policy that does not
    require authentication has no roles and no scopes.  This holds for
    every iteration order. *)
Theorem C5_public_policies_are_empty (o : MapOrder)
    (ReadFile : string → string * ptr error)
    (Unmarshal : string → openapiRoot → openapiRoot * ptr error)
    (path : string) (cfg : Config) (k : RouteKey) (policy : AuthPolicy) :
  ParseConfig o ReadFile Unmarshal path = (Some cfg, None) →
  Policies cfg !! k = Some policy →
  RequireAuth policy = false →
  Roles policy = [] ∧ Scopes policy = [].
Proof.
  unfold ParseConfig. intros Hrun Hk.
  destruct (ReadFile path) as [data [err|]]; [done |].
  destruct (Unmarshal data openapiRoot_zero) as [root [err|]]; [done |].
  destruct (rangePaths o root _ ∅) as [policies [err|]] eqn:Hloop; [done |].
  injection Hrun as <-. cbn [Policies] in Hk.
  apply rangePaths_invariant in Hloop; [|apply map_Forall_empty].
  by apply (Hloop k policy).
Qed.

Lemma C5_witness :
  Roles {| RequireAuth := false; Roles := []; Scopes := [] |} = [] ∧
  Scopes {| RequireAuth := false; Roles := []; Scopes := [] |} = [].
Proof.
  refine (C5_public_policies_are_empty keyOrder readAny (decodeTo basic_yaml)
            "basic.yaml"
            (default {| Policies := ∅ |}
               (ParseConfig keyOrder readAny (decodeTo basic_yaml)
                  "basic.yaml").1)
            {| Method := "GET"; Path := "/public" |}
            {| RequireAuth := false; Roles := []; Scopes := [] |} _ _ _).
  - by vm_compute.
  - by vm_compute.
  - reflexivity.
Defined.

(** C6.  After a successful run the keys of the resolved mapping are,
    each exactly once, the keys of the declared operations: a path with a
    non-null item, one of the seven method names with a non-null
    operation under it, the method in upper case; the policy under the
    key is the one resolved for that operation. *)
Theorem C6_keys_are_the_declared_operations (o : MapOrder)
    (ReadFile : string → string * ptr error)
    (Unmarshal : string → openapiRoot → openapiRoot * ptr error)
    (path : string) (root : openapiRoot) (cfg : Config) :
  Fair o →
  loads ReadFile Unmarshal path root →
  ParseConfig o ReadFile Unmarshal path = (Some cfg, None) →
  (map_to_list (Policies cfg)).*1 ≡ₚ routeKeyOf <$> declaredOps root ∧
  NoDup (routeKeyOf <$> declaredOps root) ∧
  size (Policies cfg) = List.length (declaredOps root) ∧
  (∀ d, d ∈ declaredOps root →
        Policies cfg !! routeKeyOf d = Some (derivePolicy o root d.2).1).
Proof.
  intros Hfair Hloads Hrun.
  pose proof (ParseConfig_lookup o ReadFile Unmarshal path root cfg
                Hfair Hloads Hrun) as Hlookup.
  assert ((map_to_list (Policies cfg)).*1 ≡ₚ routeKeyOf <$> declaredOps root)
    as Hperm.
  { apply NoDup_Permutation.
    - apply NoDup_fst_map_to_list.
    - apply NoDup_declaredOps_keys.
    - intros k. rewrite !list_elem_of_fmap. split.
      + intros ([k' policy] & -> & Hin%elem_of_map_to_list). cbn.
        apply Hlookup in Hin as (op & Hdecl & _).
        apply declaredAt_declaredOps in Hdecl as (d & Hd & <- & _).
        by exists d.
      + intros (d & -> & Hd).
        destruct (ParseConfig_covers o ReadFile Unmarshal path root cfg d
                    Hfair Hloads Hrun Hd) as (policy & _ & Hk).
        exists (routeKeyOf d, policy). split; [done |].
        by apply elem_of_map_to_list. }
  split; [done |]. split; [apply NoDup_declaredOps_keys |]. split.
  - rewrite <- (length_fmap routeKeyOf), <- Hperm, length_fmap.
    symmetry. apply length_map_to_list.
  - intros d Hd.
    destruct (ParseConfig_covers o ReadFile Unmarshal path root cfg d
                Hfair Hloads Hrun Hd) as (policy & Hop & Hk).
    by rewrite Hk, Hop.
Qed.

Lemma C6_witness :
  (map_to_list
     (Policies
        (default {| Policies := ∅ |}
           (ParseConfig keyOrder readAny (decodeTo basic_yaml)
              "basic.yaml").1))).*1
  ≡ₚ routeKeyOf <$> declaredOps basic_yaml.
Proof.
  refine (proj1 (C6_keys_are_the_declared_operations keyOrder readAny
                   (decodeTo basic_yaml) "basic.yaml" basic_yaml _
                   Fair_keyOrder _ _)).
  - by exists "basic.yaml".
  - by vm_compute.
Defined.

(** C7.  [ParseConfig] returns either a [Config] and no error, and then
    the [Config] holds the resolved policy of every declared operation,
    or no [Config] and an error.  When the resolution of any one declared
    operation fails, it is the second: nothing of what was resolved
    before is returned. *)
Theorem C7_ParseConfig_is_atomic (o : MapOrder)
    (ReadFile : string → string * ptr error)
    (Unmarshal : string → openapiRoot → openapiRoot * ptr error)
    (path : string) :
  Fair o →
  ((∃ cfg root,
      ParseConfig o ReadFile Unmarshal path = (Some cfg, None) ∧
      loads ReadFile Unmarshal path root ∧
      ∀ d, d ∈ declaredOps root →
           ∃ policy, derivePolicy o root d.2 = (policy, None) ∧
                     Policies cfg !! routeKeyOf d = Some policy) ∨
   (∃ err, ParseConfig o ReadFile Unmarshal path = (None, Some err))) ∧
  (∀ root d policy err,
     loads ReadFile Unmarshal path root →
     d ∈ declaredOps root →
     derivePolicy o root d.2 = (policy, Some err) →
     ∃ err', ParseConfig o ReadFile Unmarshal path = (None, Some err')).
Proof.
  intros Hfair.
  assert (∀ cfg root d,
            ParseConfig o ReadFile Unmarshal path = (Some cfg, None) →
            loads ReadFile Unmarshal path root →
            d ∈ declaredOps root →
            ∃ policy, derivePolicy o root d.2 = (policy, None) ∧
                      Policies cfg !! routeKeyOf d = Some policy) as Hcover.
  { intros cfg root d Hrun Hloads Hd.
    by apply (ParseConfig_covers o ReadFile Unmarshal path root cfg d). }
  split.
  - destruct (ParseConfig_shape o ReadFile Unmarshal path)
      as [(cfg & root & Hrun & Hloads & _) | Herr]; [left | by right].
    exists cfg, root. split; [done |]. split; [done |].
    intros d Hd. by apply (Hcover cfg root d).
  - intros root d policy err Hloads Hd Hop.
    destruct (ParseConfig_shape o ReadFile Unmarshal path)
      as [(cfg & root' & Hrun & Hloads' & _) | Herr]; [|done].
    assert (root' = root) as -> by by eapply loads_functional.
    destruct (Hcover cfg root d Hrun Hloads Hd) as (p & Hp & _).
    congruence.
Qed.

Lemma C7_witness :
  ∃ err, ParseConfig keyOrder readAny (decodeTo mixed_yaml) "openapi.yaml"
         = (None, Some err).
Proof.
  refine (proj2 (C7_ParseConfig_is_atomic keyOrder readAny
                   (decodeTo mixed_yaml) "openapi.yaml" Fair_keyOrder)
            mixed_yaml ("get", "/keys", mkOperation (Some [apiKey ["read"]]))
            AuthPolicy_zero errNoBearer _ _ _).
  - by exists "openapi.yaml".
  - apply elem_of_declaredOps. eexists _, Get. split; [|split].
    + by vm_compute.
    + left.
    + done.
  - by vm_compute.
Defined.

(** C10.  Two documents with the same paths, operations, requirement
    objects and scheme names, and the same token lists under
    ["BearerAuth"], give the same result whatever the token lists under
    the other scheme names, and whatever the two iteration orders: the
    same [Config], or an error for both. *)
Theorem C10_other_token_lists_do_not_matter (o1 o2 : MapOrder)
    (ReadFile : string → string * ptr error)
    (Unmarshal : string → openapiRoot → openapiRoot * ptr error)
    (path1 path2 : string) (d1 d2 : openapiRoot) :
  Fair o1 → Fair o2 →
  loads ReadFile Unmarshal path1 d1 →
  loads ReadFile Unmarshal path2 d2 →
  rootSim d1 d2 →
  (∃ cfg, ParseConfig o1 ReadFile Unmarshal path1 = (Some cfg, None) ∧
          ParseConfig o2 ReadFile Unmarshal path2 = (Some cfg, None)) ∨
  (∃ err1 err2,
     ParseConfig o1 ReadFile Unmarshal path1 = (None, Some err1) ∧
     ParseConfig o2 ReadFile Unmarshal path2 = (None, Some err2)).
Proof.
  intros Hf1 Hf2 Hl1 Hl2 Hsim.
  pose proof (rootSim_sym d1 d2 Hsim) as Hsim'.
  assert (∀ oa ob da db d,
            Fair oa → Fair ob → rootSim da db → d ∈ declaredOps da →
            ∃ d', d' ∈ declaredOps db ∧ routeKeyOf d' = routeKeyOf d ∧
                  derivePolicy ob db d'.2 = derivePolicy oa da d.2)
    as Hmatch.
  { intros oa ob da db d Ha Hb Hab Hd.
    destruct (declaredOps_sim da db d Hab Hd) as (op2 & Hd2 & Hop).
    exists (d.1.1, d.1.2, op2). split; [done |]. split; [done |].
    symmetry. apply derivePolicy_sim; [done.. | apply Hab | done]. }
  destruct (ParseConfig_shape o1 ReadFile Unmarshal path1)
    as [(cfg1 & r1 & Hrun1 & Hr1 & _) | [err1 Herr1]];
  destruct (ParseConfig_shape o2 ReadFile Unmarshal path2)
    as [(cfg2 & r2 & Hrun2 & Hr2 & _) | [err2 Herr2]].
  - left. exists cfg1. split; [done |]. rewrite Hrun2. do 2 f_equal.
    assert (r1 = d1) as -> by by eapply loads_functional.
    assert (r2 = d2) as -> by by eapply loads_functional.
    destruct cfg1 as [m1], cfg2 as [m2]. f_equal.
    assert (∀ k policy, m1 !! k = Some policy → m2 !! k = Some policy) as H12.
    { intros k policy.
      rewrite (ParseConfig_lookup o1 ReadFile Unmarshal path1 d1 _ Hf1 Hl1 Hrun1).
      rewrite (ParseConfig_lookup o2 ReadFile Unmarshal path2 d2 _ Hf2 Hl2 Hrun2).
      intros (op & (d & Hd & <- & <-)%declaredAt_declaredOps & Hop).
      destruct (Hmatch o1 o2 d1 d2 d Hf1 Hf2 Hsim Hd) as (d' & Hd' & Hk & Hp).
      exists d'.2. split; [|congruence].
      apply declaredAt_declaredOps. by exists d'. }
    assert (∀ k policy, m2 !! k = Some policy → m1 !! k = Some policy) as H21.
    { intros k policy.
      rewrite (ParseConfig_lookup o1 ReadFile Unmarshal path1 d1 _ Hf1 Hl1 Hrun1).
      rewrite (ParseConfig_lookup o2 ReadFile Unmarshal path2 d2 _ Hf2 Hl2 Hrun2).
      intros (op & (d & Hd & <- & <-)%declaredAt_declaredOps & Hop).
      destruct (Hmatch o2 o1 d2 d1 d Hf2 Hf1 Hsim' Hd) as (d' & Hd' & Hk & Hp).
      exists d'.2. split; [|congruence].
      apply declaredAt_declaredOps. by exists d'. }
    apply map_eq. intros k. apply option_eq. intros policy.
    split; [apply H21 | apply H12].
  - exfalso.
    assert (∃ cfg, ParseConfig o2 ReadFile Unmarshal path2 = (Some cfg, None))
      as [cfg2 Hrun2]; [|congruence].
    apply (ParseConfig_succeeds_iff o2 _ _ path2 d2 Hf2 Hl2). intros d Hd.
    destruct (Hmatch o2 o1 d2 d1 d Hf2 Hf1 Hsim' Hd) as (d' & Hd' & _ & Hp).
    rewrite <- Hp.
    apply (ParseConfig_succeeds_iff o1 ReadFile Unmarshal path1 d1 Hf1 Hl1);
      [by exists cfg1 | done].
  - exfalso.
    assert (∃ cfg, ParseConfig o1 ReadFile Unmarshal path1 = (Some cfg, None))
      as [cfg1 Hrun1]; [|congruence].
    apply (ParseConfig_succeeds_iff o1 _ _ path1 d1 Hf1 Hl1). intros d Hd.
    destruct (Hmatch o1 o2 d1 d2 d Hf1 Hf2 Hsim Hd) as (d' & Hd' & _ & Hp).
    rewrite <- Hp.
    apply (ParseConfig_succeeds_iff o2 ReadFile Unmarshal path2 d2 Hf2 Hl2);
      [by exists cfg2 | done].
  - right. by exists err1, err2.
Qed.

Lemma C10_witness :
  (∃ cfg, ParseConfig keyOrder readAny decodeBoth "both.yaml"
          = (Some cfg, None) ∧
          ParseConfig revOrder readAny decodeBoth "other.yaml"
          = (Some cfg, None)) ∨
  (∃ err1 err2,
     ParseConfig keyOrder readAny decodeBoth "both.yaml" = (None, Some err1) ∧
     ParseConfig revOrder readAny decodeBoth "other.yaml" = (None, Some err2)).
Proof.
  refine (C10_other_token_lists_do_not_matter keyOrder revOrder readAny
            decodeBoth "both.yaml" "other.yaml" both_yaml both_yaml'
            Fair_keyOrder Fair_revOrder _ _ _).
  - by exists "both.yaml".
  - by exists "other.yaml".
  - split; [constructor |].
    apply map_Forall2_singleton. constructor.
    unfold itemSim, pathItem_tags.
    repeat (constructor; [constructor |]); [|constructor].
    repeat constructor; by vm_compute.
Defined.

(** ** The order on route keys *)

#[global] Instance RouteKey_le_trans : Transitive RouteKey_le.
Proof.
  intros a b c [[Hab Hle1] | [Hab Hle1]] [[Hbc Hle2] | [Hbc Hle2]];
    unfold RouteKey_le.
  - left. split; [|by etrans].
    intros Hac. rewrite <- Hac in Hle2.
    by apply Hab, (anti_symm String.le).
  - left. rewrite <- Hbc. by split.
  - left. rewrite Hab. by split.
  - right. split; [congruence | by etrans].
Qed.

#[global] Instance RouteKey_le_total : Total RouteKey_le.
Proof.
  intros a b. unfold RouteKey_le.
  destruct (decide (Method a = Method b)) as [Heq|Hne].
  - destruct (total String.le (Path a) (Path b)); [left | right]; by right.
  - destruct (total String.le (Method a) (Method b)); [left | right]; left;
      by split.
Qed.

#[global] Instance RouteKey_le_antisym : AntiSymm eq RouteKey_le.
Proof.
  intros [ma pa] [mb pb] [[Hab Hle1] | [Hab Hle1]] [[Hba Hle2] | [Hba Hle2]];
    cbn in *.
  - by destruct Hab; apply (anti_symm String.le).
  - by destruct Hab.
  - by destruct Hba.
  - f_equal; [done | by apply (anti_symm String.le)].
Qed.

(** ** The serializer *)

Lemma emittedKeys_order
    (r1 r2 : gmap RouteKey AuthPolicy → list (RouteKey * AuthPolicy))
    (cfg : Config) :
  FairKeys r1 → FairKeys r2 → emittedKeys r1 cfg = emittedKeys r2 cfg.
Proof.
  intros H1 H2. unfold emittedKeys.
  apply (Sorted_unique RouteKey_le).
  - apply Sorted_merge_sort, _.
  - apply Sorted_merge_sort, _.
  - etrans; [apply merge_sort_Permutation |].
    symmetry. etrans; [apply merge_sort_Permutation |].
    apply fmap_Permutation. by rewrite (H1 (Policies cfg)), (H2 (Policies cfg)).
Qed.

(** C8.  The output of the serializer does not depend on the order in
    which the map of the [Config] is iterated, nor on the order in which
    its entries were inserted; the entries are emitted once each, sorted
    by method, then path. *)
Theorem C8_Generate_is_deterministic
    (r1 r2 : gmap RouteKey AuthPolicy → list (RouteKey * AuthPolicy))
    (pkg : string) (cfg : Config) :
  FairKeys r1 → FairKeys r2 →
  Generate r1 pkg cfg = Generate r2 pkg cfg ∧
  emittedKeys r1 cfg ≡ₚ (map_to_list (Policies cfg)).*1 ∧
  StronglySorted RouteKey_le (emittedKeys r1 cfg) ∧
  (validIdent pkg = true →
   Generate r1 pkg cfg
   = (header pkg
      ++ String.concat EmptyString (renderEntry cfg <$> emittedKeys r1 cfg)
      ++ "}" ++ nl, None)) ∧
  (∀ l1 l2 : list (RouteKey * AuthPolicy),
     NoDup l1.*1 → l1 ≡ₚ l2 →
     Generate r1 pkg {| Policies := list_to_map l1 |}
     = Generate r2 pkg {| Policies := list_to_map l2 |}).
Proof.
  intros H1 H2.
  assert (∀ cfg', Generate r1 pkg cfg' = Generate r2 pkg cfg') as Hsame.
  { intros cfg'. unfold Generate.
    by rewrite (emittedKeys_order r1 r2 cfg' H1 H2). }
  split; [done |]. split; [|split; [|split]].
  - unfold emittedKeys. etrans; [apply merge_sort_Permutation |].
    apply fmap_Permutation, H1.
  - apply StronglySorted_merge_sort; apply _.
  - intros Hvalid. unfold Generate. by rewrite Hvalid.
  - intros l1 l2 Hnodup Hperm.
    by rewrite (list_to_map_proper l1 l2 Hnodup Hperm).
Qed.

Lemma C8_witness :
  Generate map_to_list "httproutes" golden_cfg
  = Generate (λ m, reverse (map_to_list m)) "httproutes" golden_cfg.
Proof.
  refine (proj1 (C8_Generate_is_deterministic map_to_list
                   (λ m, reverse (map_to_list m)) "httproutes" golden_cfg
                   _ _)).
  - intros m. reflexivity.
  - intros m. apply reverse_Permutation.
Defined.

(** The entries of the golden test, in the order they are emitted. *)
Example emittedKeys_golden :
  emittedKeys (λ m, reverse (map_to_list m)) golden_cfg
  = [ mkRouteKey "DELETE" "/admin"; mkRouteKey "GET" "/public";
      mkRouteKey "GET" "/user"; mkRouteKey "POST" "/scoped" ].
Proof. by vm_compute. Qed.

(** With two operations whose resolution fails, the error that
    [ParseConfig] returns names the one the iteration reaches first. *)
Example ParseConfig_twoBad :
  ParseConfig keyOrder readAny (decodeTo twoBad_yaml) "openapi.yaml"
  = (None, Some (errDerive (mkRouteKey "GET" "/a"))) ∧
  ParseConfig revOrder readAny (decodeTo twoBad_yaml) "openapi.yaml"
  = (None, Some (errDerive (mkRouteKey "GET" "/b"))).
Proof. split; by vm_compute. Qed.

(** The fixture of the parser test resolves as the test expects. *)
Example ParseConfig_basic :
  ∃ cfg,
    ParseConfig keyOrder readAny (decodeTo basic_yaml) "basic.yaml"
    = (Some cfg, None) ∧
    Policies cfg !! mkRouteKey "GET" "/public"
    = Some (mkAuthPolicy false [] []) ∧
    Policies cfg !! mkRouteKey "GET" "/user"
    = Some (mkAuthPolicy true [] []) ∧
    Policies cfg !! mkRouteKey "DELETE" "/admin"
    = Some (mkAuthPolicy true ["admin"] []) ∧
    Policies cfg !! mkRouteKey "POST" "/scoped"
    = Some (mkAuthPolicy true [] ["vegetable:write"]).
Proof. eexists. split; [by vm_compute |]. repeat split; by vm_compute. Qed.

(** * Further properties of the code *)

(** ** The middleware *)

Lemma hasAnyRole_have_true (have : list string) (r : string) :
  hasAnyRole_have have r = true ↔ r ∈ have.
Proof.
  induction have as [|h have IH]; cbn.
  - split; [done | by intros ?%elem_of_nil].
  - rewrite elem_of_cons. destruct (String.eqb_spec h r) as [-> | Hne].
    + split; [by left | done].
    + rewrite IH. split; [by right | by intros [-> | ?]].
Qed.

Lemma hasAllScopes_found_true (have : list string) (r : string) :
  hasAllScopes_found have r false = true ↔ r ∈ have.
Proof.
  induction have as [|h have IH]; cbn.
  - split; [done | by intros ?%elem_of_nil].
  - rewrite elem_of_cons. destruct (String.eqb_spec h r) as [-> | Hne].
    + split; [by left | done].
    + rewrite IH. split; [by right | by intros [-> | ?]].
Qed.

Lemma hasAnyRole_true (claims : Claims) (required : list string) :
  hasAnyRole claims required = true ↔
  ∃ r, r ∈ required ∧ r ∈ claims_Roles claims.
Proof.
  unfold hasAnyRole. induction required as [|r required IH]; cbn.
  - split; [done | by intros (? & ?%elem_of_nil & _)].
  - destruct (hasAnyRole_have (claims_Roles claims) r) eqn:Hr.
    + apply hasAnyRole_have_true in Hr. split; [|done].
      intros _. exists r. split; [left | done].
    + rewrite IH. split.
      * intros (r' & Hin & Hhave). exists r'. split; [by right | done].
      * intros (r' & [-> | Hin]%elem_of_cons & Hhave).
        -- apply hasAnyRole_have_true in Hhave. congruence.
        -- by exists r'.
Qed.

Lemma hasAllScopes_true (claims : Claims) (required : list string) :
  hasAllScopes claims required = true ↔ required ⊆ claims_Scopes claims.
Proof.
  induction required as [|r required IH]; cbn.
  - split; [intros _ x Hx; by apply elem_of_nil in Hx | done].
  - destruct (hasAllScopes_found (claims_Scopes claims) r false) eqn:Hr; cbn.
    + apply hasAllScopes_found_true in Hr. rewrite IH. split.
      * intros Hsub x [-> | Hx]%elem_of_cons; [done | by apply Hsub].
      * intros Hsub x Hx. apply Hsub. by right.
    + split; [done |]. intros Hsub.
      assert (r ∈ claims_Scopes claims) as Hin by (apply Hsub; left).
      apply hasAllScopes_found_true in Hin. congruence.
Qed.

(** X1.  [hasAnyRole] holds exactly when the claims hold at least one of
    the required roles; in particular it fails when no role is required
    and when the claims hold no role. *)
Theorem hasAnyRole_iff (claims : Claims) (required : list string) :
  (hasAnyRole claims required = true ↔
   ∃ r, r ∈ required ∧ r ∈ claims_Roles claims) ∧
  hasAnyRole claims [] = false ∧
  (claims_Roles claims = [] → hasAnyRole claims required = false).
Proof.
  split; [apply hasAnyRole_true |]. split; [done |].
  intros Hnone. apply not_true_is_false.
  intros (r & _ & Hin)%hasAnyRole_true.
  rewrite Hnone in Hin. by apply elem_of_nil in Hin.
Qed.

(** X2.  [hasAllScopes] holds exactly when the claims hold every required
    scope; in particular it holds when no scope is required. *)
Theorem hasAllScopes_iff (claims : Claims) (required : list string) :
  (hasAllScopes claims required = true ↔
   required ⊆ claims_Scopes claims) ∧
  hasAllScopes claims [] = true.
Proof. split; [apply hasAllScopes_true | done]. Qed.

Lemma length_pos_nil {A : Type} (l : list A) :
  (0 <? List.length l)%nat = false ↔ l = [].
Proof. destruct l; cbn; by split. Qed.

(** The middleware answers [Next] exactly for the requests the table lets
    through. *)
Lemma AuthPolicyMiddleware_Next (policies : gmap RouteKey AuthPolicy)
    (r : Request) :
  AuthPolicyMiddleware policies r = Next ↔ letsThrough policies r.
Proof.
  unfold AuthPolicyMiddleware, letsThrough.
  destruct (req_routeCtx r); cbn [negb]; [|split; [by left | done]].
  destruct (policies !! _) as [policy|]; [|split; [right; by left | done]].
  destruct (RequireAuth policy) eqn:Hauth; cbn [negb].
  2:{ split; [|done]. intros _. right. right. exists policy. split; [done |].
      by left. }
  destruct (req_claims r) as [claims|].
  2:{ split; [done |].
      intros [? | [? | (p & [= <-] & [? | (c & ? & _)])]]; congruence. }
  destruct (0 <? List.length (Roles policy))%nat eqn:Hroles; cbn [andb].
  - destruct (hasAnyRole claims (Roles policy)) eqn:Hany; cbn [negb].
    + apply hasAnyRole_true in Hany.
      destruct (0 <? List.length (Scopes policy))%nat eqn:Hscopes; cbn [andb].
      * destruct (hasAllScopes claims (Scopes policy)) eqn:Hall; cbn [negb].
        -- apply hasAllScopes_true in Hall. split; [|done]. intros _.
           right. right. exists policy. split; [done |]. right.
           exists claims. split; [done |]. split; [by right | done].
        -- split; [done |].
           intros [? | [? | (p & [= <-] & [? | (c & [= <-] & _ & Hsub)])]];
             try congruence.
           apply hasAllScopes_true in Hsub. congruence.
      * apply length_pos_nil in Hscopes. split; [|done]. intros _.
        right. right. exists policy. split; [done |]. right.
        exists claims. split; [done |]. split; [by right |].
        rewrite Hscopes. intros x Hx. by apply elem_of_nil in Hx.
    + split; [done |].
      intros [? | [? | (p & [= <-] & [? | (c & [= <-] & [Hnil | Hrole] & _)])]];
        try congruence.
      * rewrite Hnil in Hroles. done.
      * apply hasAnyRole_true in Hrole. congruence.
  - apply length_pos_nil in Hroles.
    destruct (0 <? List.length (Scopes policy))%nat eqn:Hscopes; cbn [andb].
    + destruct (hasAllScopes claims (Scopes policy)) eqn:Hall; cbn [negb].
      * apply hasAllScopes_true in Hall. split; [|done]. intros _.
        right. right. exists policy. split; [done |]. right.
        exists claims. split; [done |]. split; [by left | done].
      * split; [done |].
        intros [? | [? | (p & [= <-] & [? | (c & [= <-] & _ & Hsub)])]];
          try congruence.
        apply hasAllScopes_true in Hsub. congruence.
    + apply length_pos_nil in Hscopes. split; [|done]. intros _.
      right. right. exists policy. split; [done |]. right.
      exists claims. split; [done |]. split; [by left |].
      rewrite Hscopes. intros x Hx. by apply elem_of_nil in Hx.
Qed.

(** X3.  The middleware has three answers.  It lets a request through
    exactly when no route context is attached, or the table has no entry
    for method and path, or the entry does not require authentication, or
    the claims are present, hold one of the roles of the entry when it
    lists any, and hold all its scopes.  It answers 401 exactly when the
    entry requires authentication and the request carries no claims, and
    403 in the remaining cases. *)
Theorem AuthPolicyMiddleware_decides (policies : gmap RouteKey AuthPolicy)
    (r : Request) :
  (AuthPolicyMiddleware policies r = Next ↔ letsThrough policies r) ∧
  (AuthPolicyMiddleware policies r = httpError "unauthorized" 401 ↔
   req_routeCtx r = true ∧ req_claims r = None ∧
   ∃ policy,
     policies !! mkRouteKey (req_Method r) (req_Path r) = Some policy ∧
     RequireAuth policy = true) ∧
  (AuthPolicyMiddleware policies r = Next ∨
   AuthPolicyMiddleware policies r = httpError "unauthorized" 401 ∨
   AuthPolicyMiddleware policies r = httpError "forbidden" 403).
Proof.
  split; [apply AuthPolicyMiddleware_Next |]. split.
  - unfold AuthPolicyMiddleware.
    destruct (req_routeCtx r); cbn [negb]; [|split; [done | by intros [? _]]].
    destruct (policies !! _) as [policy|];
      [|split; [done | by intros (_ & _ & ? & ? & _)]].
    destruct (RequireAuth policy) eqn:Hauth; cbn [negb].
    2:{ split; [done |]. intros (_ & _ & p & [= <-] & ?). congruence. }
    destruct (req_claims r) as [claims|].
    + split; [|by intros (_ & ? & _)].
      destruct (_ && _); [done |]. by destruct (_ && _).
    + split; [|done]. intros _. split; [done |]. split; [done |].
      by exists policy.
  - unfold AuthPolicyMiddleware.
    destruct (req_routeCtx r); cbn [negb]; [|by left].
    destruct (policies !! _) as [policy|]; [|by left].
    destruct (RequireAuth policy); cbn [negb]; [|by left].
    destruct (req_claims r) as [claims|]; [|right; by left].
    destruct (_ && _); [right; by right |].
    destruct (_ && _); [right; by right | by left].
Qed.

(** X4.  Claims that hold more never do worse: when a request is let
    through with some claims, it is let through with any claims that hold
    at least the same roles and scopes. *)
Theorem AuthPolicyMiddleware_monotone (policies : gmap RouteKey AuthPolicy)
    (r : Request) (c1 c2 : Claims) :
  claimsIncluded c1 c2 →
  AuthPolicyMiddleware policies (withClaims (Some c1) r) = Next →
  AuthPolicyMiddleware policies (withClaims (Some c2) r) = Next.
Proof.
  intros [Hroles Hscopes]. rewrite !AuthPolicyMiddleware_Next.
  unfold letsThrough. cbn.
  intros [? | [? | (policy & Hp & [? | (c & [= <-] & Hr & Hs)])]];
    [by left | right; by left | right; right; exists policy; split; [done |]..].
  - by left.
  - right. exists c2. split; [done |]. split.
    + destruct Hr as [? | (role & Hin & Hhave)]; [by left | right].
      exists role. split; [done | by apply Hroles].
    + intros x Hx. by apply Hscopes, Hs.
Qed.

Lemma AuthPolicyMiddleware_monotone_witness :
  AuthPolicyMiddleware testPoliciesByPath
    (withClaims (Some (mkClaims ["user"; "admin"] ["vegetable:write"]))
       (mkRequest true "DELETE" "/admin" None)) = Next.
Proof.
  refine (AuthPolicyMiddleware_monotone testPoliciesByPath
            (mkRequest true "DELETE" "/admin" None)
            (mkClaims ["admin"] [])
            (mkClaims ["user"; "admin"] ["vegetable:write"]) _ _).
  - split; cbn; intros x Hx; [by right | by apply elem_of_nil in Hx].
  - by vm_compute.
Defined.

(** The six requests of [TestAuthPolicyMiddleware_WithChiRouter] get the
    status the test expects. *)
Example AuthPolicyMiddleware_test :
  let run claims method path :=
    AuthPolicyMiddleware testPoliciesByPath
      (withClaims claims (mkRequest true method path None)) in
  run None "GET" "/public" = Next ∧
  run None "GET" "/user" = httpError "unauthorized" 401 ∧
  run (Some (mkClaims ["user"] [])) "DELETE" "/admin"
  = httpError "forbidden" 403 ∧
  run (Some (mkClaims ["admin"] [])) "DELETE" "/admin" = Next ∧
  run (Some (mkClaims ["user"] [])) "POST" "/scoped"
  = httpError "forbidden" 403 ∧
  run (Some (mkClaims [] ["vegetable:write"])) "POST" "/scoped" = Next.
Proof. repeat split; by vm_compute. Qed.

(** ** From the document to the enforcement *)




(** ** Further properties of the parser *)

(** X6.  [Operations] maps exactly the non-nil method fields of a path
    item, each under its method name in upper case: no other key occurs,
    and no key is mapped to nil, so that the nil test on the operations
    in [ParseConfig] never fires. *)
Theorem Operations_spec (item : pathItem) :
  (∀ m v, Operations item !! m = Some v → ∃ op, v = Some op) ∧
  (∀ m, is_Some (Operations item !! m) →
        m ∈ ["GET"; "POST"; "PUT"; "DELETE"; "PATCH"; "OPTIONS"; "HEAD"]) ∧
  Forall (λ '(tag, field),
            Operations item !! ToUpper tag = (λ op, Some op) <$> field item)
         pathItem_tags ∧
  (∀ o rawPath,
     Fair o →
     List.length (opVisits rawPath (range_ops o rawPath (Operations item)))
     = size (Operations item)).
Proof.
  assert (∀ m v, Operations item !! m = Some v →
                 (∃ op, v = Some op) ∧
                 m ∈ ["GET"; "POST"; "PUT"; "DELETE"; "PATCH"; "OPTIONS";
                      "HEAD"]) as Hboth.
  { intros m v Hop. unfold Operations in Hop.
    destruct item as [g po pu d pa o h].
    cbn [Get Post Put Delete Patch Options Head] in Hop.
    destruct g, po, pu, d, pa, o, h;
      repeat match type of Hop with
        | <[_:=_]> _ !! _ = Some _ =>
            apply lookup_insert_Some in Hop as [[<- <-] | [_ Hop]]
        end;
      try (by rewrite lookup_empty in Hop);
      (split; [by eexists | set_solver]). }
  split; [intros m v Hop; by apply (Hboth m v) |].
  split; [intros m [v Hop]; by apply (Hboth m v) |].
  split.
  - destruct item as [g po pu d pa o h]. unfold pathItem_tags.
    destruct g, po, pu, d, pa, o, h; repeat constructor.
  - intros o rawPath (_ & Hops & _).
    assert (∀ l : list (string * ptr operation),
              (∀ m v, (m, v) ∈ l → ∃ op, v = Some op) →
              List.length (opVisits rawPath l) = List.length l) as Hlen.
    { induction l as [|[m v] l IH]; intros Hl; [done |].
      destruct (Hl m v) as [op ->]; [left |].
      cbn. f_equal. apply IH. intros m' v' Hin. apply (Hl m' v'). by right. }
    rewrite Hlen.
    + by rewrite <- length_map_to_list, (Hops rawPath (Operations item)).
    + intros m v Hin. rewrite (Hops rawPath (Operations item)) in Hin.
      apply elem_of_map_to_list in Hin. by apply (Hboth m v).
Qed.

(** X7.  Every error of [ParseConfig] comes without a [Config] and wraps
    its cause: the error of [os.ReadFile] behind ["read spec: "], or,
    the file read, the error of [yaml.Unmarshal] behind
    ["unmarshal spec: "], or, the document decoded, the missing-bearer
    error of a declared operation behind its method and path. *)
Theorem ParseConfig_error_kinds (o : MapOrder)
    (ReadFile : string → string * ptr error)
    (Unmarshal : string → openapiRoot → openapiRoot * ptr error)
    (path : string) (c : ptr Config) (e : error) :
  Fair o →
  ParseConfig o ReadFile Unmarshal path = (c, Some e) →
  c = None ∧
  ∃ cause, Unwrap e = Some cause ∧
    ((∃ data, ReadFile path = (data, Some cause) ∧
              Error e = "read spec: " ++ Error cause) ∨
     (∃ data root,
        ReadFile path = (data, None) ∧
        Unmarshal data openapiRoot_zero = (root, Some cause) ∧
        Error e = "unmarshal spec: " ++ Error cause) ∨
     (∃ root d,
        loads ReadFile Unmarshal path root ∧
        d ∈ declaredOps root ∧ lacksBearer root d.2 ∧
        cause = errNoBearer ∧
        Error e = ("derive policy for " ++ ToUpper d.1.1 ++ " " ++ d.1.2)
                  ++ ": " ++ Error cause)).
Proof.
  intros Hfair. unfold ParseConfig.
  destruct (ReadFile path) as [data [e0|]] eqn:Hread.
  { intros [= <- <-]. split; [done |]. exists e0. split; [done |].
    left. by exists data. }
  destruct (Unmarshal data openapiRoot_zero) as [root [e0|]] eqn:Hdecode.
  { intros [= <- <-]. split; [done |]. exists e0. split; [done |].
    right. left. by exists data, root. }
  rewrite rangePaths_visits.
  destruct (runVisits_result o root
              (pathVisits o (range_paths o (Paths root))) ∅ Hfair)
    as [[_ [m ->]] | (pre & k & op & post & m & Hvs & _ & Hbad & ->)];
    [done |].
  intros [= <- <-]. split; [done |]. exists errNoBearer. split; [done |].
  right. right.
  assert (declaredAt root k op) as Hdecl.
  { apply (elem_of_pathVisits o root _ _ Hfair). rewrite Hvs.
    apply elem_of_app. right. left. }
  apply declaredAt_declaredOps in Hdecl as (d & Hd & <- & <-).
  exists root, d. split; [by exists data |]. by repeat split.
Qed.

Lemma ParseConfig_error_kinds_witness :
  None = (None : ptr Config) ∧
  ∃ cause,
    Unwrap (Errorf_w "unmarshal spec" (errorString "yaml: line 1")) = Some cause ∧
    ((∃ data, readAny "bad.yaml" = (data, Some cause) ∧
              Error (Errorf_w "unmarshal spec" (errorString "yaml: line 1"))
              = "read spec: " ++ Error cause) ∨
     (∃ data root,
        readAny "bad.yaml" = (data, None) ∧
        (λ _ r, (r, Some (errorString "yaml: line 1"))) data openapiRoot_zero
        = (root, Some cause) ∧
        Error (Errorf_w "unmarshal spec" (errorString "yaml: line 1"))
        = "unmarshal spec: " ++ Error cause) ∨
     (∃ root d,
        loads readAny (λ _ r, (r, Some (errorString "yaml: line 1")))
          "bad.yaml" root ∧
        d ∈ declaredOps root ∧ lacksBearer root d.2 ∧
        cause = errNoBearer ∧
        Error (Errorf_w "unmarshal spec" (errorString "yaml: line 1"))
        = ("derive policy for " ++ ToUpper d.1.1 ++ " " ++ d.1.2)
          ++ ": " ++ Error cause)).
Proof.
  refine (ParseConfig_error_kinds keyOrder readAny
            (λ _ r, (r, Some (errorString "yaml: line 1"))) "bad.yaml"
            None (Errorf_w "unmarshal spec" (errorString "yaml: line 1"))
            Fair_keyOrder _).
  reflexivity.
Defined.

(** X8.  The iteration order of the maps does not show in a success: the
    policy of an operation is the same under any two orders, a run that
    succeeds under one order succeeds with the same [Config] under any
    other, and a run that fails under one fails under any other. *)
Theorem ParseConfig_order_independent (o1 o2 : MapOrder)
    (ReadFile : string → string * ptr error)
    (Unmarshal : string → openapiRoot → openapiRoot * ptr error)
    (path : string) :
  Fair o1 → Fair o2 →
  (∀ root op, derivePolicy o1 root op = derivePolicy o2 root op) ∧
  (∀ cfg, ParseConfig o1 ReadFile Unmarshal path = (Some cfg, None) →
          ParseConfig o2 ReadFile Unmarshal path = (Some cfg, None)) ∧
  (∀ e1, ParseConfig o1 ReadFile Unmarshal path = (None, Some e1) →
         ∃ e2, ParseConfig o2 ReadFile Unmarshal path = (None, Some e2)).
Proof.
  intros Hf1 Hf2.
  assert (∀ oa ob, Fair oa → Fair ob →
            ∀ cfg, ParseConfig oa ReadFile Unmarshal path = (Some cfg, None) →
                   ParseConfig ob ReadFile Unmarshal path = (Some cfg, None))
    as Hsame.
  { intros oa ob Ha Hb cfg Hrun.
    destruct (ParseConfig_shape oa ReadFile Unmarshal path)
      as [(cfg' & root & Hrun' & Hloads & _) | [err Herr]]; [|congruence].
    destruct (proj2 (ParseConfig_succeeds_iff ob ReadFile Unmarshal path root
                       Hb Hloads)) as [cfgb Hrunb].
    { intros d Hd. rewrite (derivePolicy_order ob oa) by done.
      apply (ParseConfig_succeeds_iff oa ReadFile Unmarshal path root
               Ha Hloads); [by exists cfg | done]. }
    rewrite Hrunb. do 2 f_equal.
    destruct cfg as [ma], cfgb as [mb]. f_equal.
    apply map_eq. intros k. apply option_eq. intros policy.
    rewrite (ParseConfig_lookup ob ReadFile Unmarshal path root _ Hb Hloads
               Hrunb).
    rewrite (ParseConfig_lookup oa ReadFile Unmarshal path root _ Ha Hloads
               Hrun).
    split; intros (op & Hdecl & Hop); exists op; split; try done.
    - by rewrite (derivePolicy_order oa ob).
    - by rewrite (derivePolicy_order ob oa). }
  split; [intros root op; by apply derivePolicy_order |].
  split; [by apply Hsame |].
  intros e1 Herr1.
  destruct (ParseConfig_shape o2 ReadFile Unmarshal path)
    as [(cfg & _ & Hrun2 & _) | Herr2]; [|done].
  rewrite (Hsame o2 o1 Hf2 Hf1 cfg Hrun2) in Herr1. done.
Qed.

Lemma ParseConfig_order_independent_witness :
  ParseConfig revOrder readAny (decodeTo basic_yaml) "basic.yaml"
  = (Some (default {| Policies := ∅ |}
             (ParseConfig keyOrder readAny (decodeTo basic_yaml)
                "basic.yaml").1), None).
Proof.
  refine (proj1 (proj2 (ParseConfig_order_independent keyOrder revOrder
                          readAny (decodeTo basic_yaml) "basic.yaml"
                          Fair_keyOrder Fair_revOrder)) _ _).
  by vm_compute.
Defined.

(** X9.  A document that is read and decoded resolves to a [Config]
    exactly when none of its declared operations has a non-empty
    effective security list that names the bearer scheme nowhere. *)
Theorem ParseConfig_succeeds_exactly_when (o : MapOrder)
    (ReadFile : string → string * ptr error)
    (Unmarshal : string → openapiRoot → openapiRoot * ptr error)
    (path : string) (root : openapiRoot) :
  Fair o →
  loads ReadFile Unmarshal path root →
  (∃ cfg, ParseConfig o ReadFile Unmarshal path = (Some cfg, None)) ↔
  (∀ d, d ∈ declaredOps root → ¬ lacksBearer root d.2).
Proof.
  intros Hfair Hloads.
  rewrite (ParseConfig_succeeds_iff o ReadFile Unmarshal path root Hfair Hloads).
  split; intros Hall d Hd.
  - intros Hbad. destruct (Hall d Hd) as [policy Hop].
    rewrite (derivePolicy_lacksBearer o root d.2 Hfair Hbad) in Hop. done.
  - destruct (derivePolicy_cases o root d.2 Hfair) as [[Hbad _] | [_ Hok]];
      [by destruct (Hall d Hd) | done].
Qed.

Lemma ParseConfig_succeeds_exactly_when_witness :
  (∃ cfg, ParseConfig keyOrder readAny (decodeTo basic_yaml) "basic.yaml"
          = (Some cfg, None)) ↔
  (∀ d, d ∈ declaredOps basic_yaml → ¬ lacksBearer basic_yaml d.2).
Proof.
  refine (ParseConfig_succeeds_exactly_when keyOrder readAny
            (decodeTo basic_yaml) "basic.yaml" basic_yaml Fair_keyOrder _).
  by exists "basic.yaml".
Defined.

(** X10.  A resolved policy is public exactly when the effective security
    list is absent or empty, and requires authentication exactly when the
    list names the bearer scheme: a non-empty list never resolves to a
    public policy. *)
Theorem derivePolicy_public_iff (o : MapOrder) (root : openapiRoot)
    (op : operation) (policy : AuthPolicy) :
  Fair o →
  derivePolicy o root op = (policy, None) →
  (RequireAuth policy = false ↔
   effectiveSecurity root op = None ∨ effectiveSecurity root op = Some []) ∧
  (RequireAuth policy = true ↔
   ∃ sec tokens, effectiveSecurity root op = Some sec ∧
                 firstBearer sec = Some tokens).
Proof.
  intros Hfair. rewrite derivePolicy_spec by done.
  destruct (effectiveSecurity root op) as [[|req sec]|].
  - intros [= <-]. cbn. split.
    + split; [by right | done].
    + split; [done | by intros (? & ? & [= <-] & ?)].
  - destruct (firstBearer (req :: sec)) as [tokens|] eqn:Hfirst; [|done].
    intros [= <-]. cbn. split.
    + split; [done | by intros [? | ?]].
    + split; [|done]. intros _. by exists (req :: sec), tokens.
  - intros [= <-]. cbn. split.
    + split; [by left | done].
    + split; [done | by intros (? & ? & ? & _)].
Qed.

Lemma derivePolicy_public_iff_witness :
  (RequireAuth (mkAuthPolicy true ["admin"] []) = false ↔
   effectiveSecurity mixed_yaml (mkOperation None) = None ∨
   effectiveSecurity mixed_yaml (mkOperation None) = Some []) ∧
  (RequireAuth (mkAuthPolicy true ["admin"] []) = true ↔
   ∃ sec tokens, effectiveSecurity mixed_yaml (mkOperation None) = Some sec ∧
                 firstBearer sec = Some tokens).
Proof.
  refine (derivePolicy_public_iff keyOrder mixed_yaml (mkOperation None)
            (mkAuthPolicy true ["admin"] []) Fair_keyOrder _).
  reflexivity.
Defined.

Lemma tokens_conserved (tokens : list string) :
  ((λ name, "role:" ++ name) <$> omap roleName tokens)
  ++ List.filter isScope tokens ≡ₚ tokens.
Proof.
  induction tokens as [|s tokens IH]; [done |].
  cbn [omap list_omap List.filter]. unfold isScope at 1.
  destruct (roleName s) as [name|] eqn:Hname.
  - apply roleName_Some in Hname as [_ ->]. cbn. by constructor.
  - rewrite <- Permutation_middle. by constructor.
Qed.

(** X11.  No token of the matched bearer list is lost or invented: the
    roles, with ["role:"] put back in front, together with the scopes are
    the tokens of the list up to order, and there are as many roles and
    scopes as tokens. *)
Theorem bearer_tokens_conserved (o : MapOrder) (root : openapiRoot)
    (op : operation) (sec : list securityRequirement)
    (tokens : list string) :
  Fair o →
  effectiveSecurity root op = Some sec →
  firstBearer sec = Some tokens →
  let policy := (derivePolicy o root op).1 in
  ((λ name, "role:" ++ name) <$> Roles policy) ++ Scopes policy ≡ₚ tokens ∧
  (List.length (Roles policy) + List.length (Scopes policy)
   = List.length tokens)%nat.
Proof.
  intros Hfair Heff Hfirst policy.
  assert (policy = bearerPolicy tokens) as ->.
  { unfold policy. rewrite derivePolicy_spec, Heff, Hfirst by done.
    by destruct sec. }
  cbn [bearerPolicy Roles Scopes]. split; [apply tokens_conserved |].
  rewrite <- (Permutation_length (tokens_conserved tokens)).
  by rewrite length_app, length_fmap.
Qed.

Lemma bearer_tokens_conserved_witness :
  let policy :=
    (derivePolicy keyOrder openapiRoot_zero
       {| op_Security := Some [bearer ["a:b"; "role:x"; "role:"; "role:x"]] |}).1
  in
  ((λ name, "role:" ++ name) <$> Roles policy) ++ Scopes policy
  ≡ₚ ["a:b"; "role:x"; "role:"; "role:x"] ∧
  (List.length (Roles policy) + List.length (Scopes policy)
   = List.length ["a:b"; "role:x"; "role:"; "role:x"])%nat.
Proof.
  refine (bearer_tokens_conserved keyOrder openapiRoot_zero
            {| op_Security :=
                 Some [bearer ["a:b"; "role:x"; "role:"; "role:x"]] |}
            [bearer ["a:b"; "role:x"; "role:"; "role:x"]]
            ["a:b"; "role:x"; "role:"; "role:x"] Fair_keyOrder _ _);
    reflexivity.
Defined.

(** ** The command *)

(** Membership in a trace that is written out. *)
Ltac trace_mem :=
  intros;
  repeat match goal with
    | H : _ ∈ _ :: _ |- _ => apply elem_of_cons in H as [H | H]
    | H : _ ∈ [] |- _ => by apply elem_of_nil in H
    end;
  congruence.

Section MainFacts.

Context (parsed : flagResult).
Context (parseConfig : string → ptr Config * ptr error).
Context (generate : string → ptr Config → string * ptr error).
Context (writeFile : string → string → N → ptr error).

(** X12.  [main] calls [os.WriteFile] only after [flag.Parse] returned,
    the flags [-in] and [-out] were given, the document was parsed and
    the code generated without error, and then once, at the path of
    [-out], with the generated code and mode 0644; the package name is
    that of [-pkg], or [httproutes] without it. *)
Theorem main_writes_only_generated_code (name data : string) (perm : N) :
  WriteFile name data perm ∈ main parsed parseConfig generate writeFile ↔
  ∃ flags,
    parsed = flagParsed flags ∧
    flag_String flags "in" EmptyString ≠ EmptyString ∧
    flag_String flags "out" EmptyString ≠ EmptyString ∧
    name = flag_String flags "out" EmptyString ∧ perm = 420%N ∧
    ∃ cfg,
      parseConfig (flag_String flags "in" EmptyString) = (cfg, None) ∧
      generate (default "httproutes" (flags !! "pkg")) cfg = (data, None).
Proof.
  unfold main. destruct parsed as [flags | lines code].
  2:{ split; [|by intros (? & ? & _)].
      intros [Hin | Hin]%elem_of_app.
      - by apply list_elem_of_fmap in Hin as (? & ? & _).
      - by apply list_elem_of_singleton in Hin. }
  assert (∀ P : gmap string string → Prop,
            (∃ flags', flagParsed flags = flagParsed flags' ∧ P flags')
            ↔ P flags) as Hflags.
  { intros P. split; [by intros (? & [= <-] & ?) | intros ?; by exists flags]. }
  rewrite Hflags.
  destruct (String.eqb_spec (flag_String flags "in" EmptyString) EmptyString)
    as [Hin | Hin]; cbn [orb].
  { split; [trace_mem | by intros [? _]]. }
  destruct (String.eqb_spec (flag_String flags "out" EmptyString) EmptyString)
    as [Hout | Hout].
  { split; [trace_mem | by intros (_ & ? & _)]. }
  destruct (parseConfig _) as [cfg [err|]] eqn:Hparse.
  { split; [trace_mem | by intros (_ & _ & _ & _ & ? & ? & _)]. }
  unfold flag_String at 1.
  destruct (generate _ cfg) as [code [err|]] eqn:Hgen.
  { split; [trace_mem |].
    intros (_ & _ & _ & _ & cfg' & [= <-] & Hgen'). congruence. }
  assert (WriteFile name data perm
          = WriteFile (flag_String flags "out" EmptyString) code 420 ↔
          name = flag_String flags "out" EmptyString ∧ perm = 420%N ∧
          data = code) as Heq.
  { split; [by intros [= -> -> ->] | by intros (-> & -> & ->)]. }
  destruct (writeFile _ code 420%N) as [err|].
  - rewrite !elem_of_cons, Heq. split.
    + intros [(-> & -> & ->) | [[=] | [[=] | []%elem_of_nil]]].
      repeat split; try done. by exists cfg.
    + intros (_ & _ & -> & -> & cfg' & [= <-] & Hgen').
      left. repeat split. congruence.
  - rewrite list_elem_of_singleton, Heq. split.
    + intros (-> & -> & ->). repeat split; try done. by exists cfg.
    + intros (_ & _ & -> & -> & cfg' & [= <-] & Hgen').
      repeat split. congruence.
Qed.


End MainFacts.

(** X14.  [main] over [ParseConfig], once [flag.Parse] has returned with
    [-in] and [-out] given: when a declared operation of the document has
    a non-empty effective security list that names the bearer scheme
    nowhere, the run prints the error of such an operation
    behind ["parse spec: "], exits with status 1, and neither generates
    nor writes anything. *)
Theorem main_refuses_misconfigured_document (o : MapOrder)
    (ReadFile : string → string * ptr error)
    (Unmarshal : string → openapiRoot → openapiRoot * ptr error)
    (flags : gmap string string)
    (generate : string → ptr Config → string * ptr error)
    (writeFile : string → string → N → ptr error)
    (root : openapiRoot) (d : string * string * operation) :
  Fair o →
  flag_String flags "in" EmptyString ≠ EmptyString →
  flag_String flags "out" EmptyString ≠ EmptyString →
  loads ReadFile Unmarshal (flag_String flags "in" EmptyString) root →
  d ∈ declaredOps root →
  lacksBearer root d.2 →
  ∃ d', d' ∈ declaredOps root ∧ lacksBearer root d'.2 ∧
    main (flagParsed flags) (ParseConfig o ReadFile Unmarshal) generate
      writeFile
    = [Stderr ("parse spec: "
               ++ (("derive policy for " ++ ToUpper d'.1.1 ++ " " ++ d'.1.2)
                   ++ ": security section present but no BearerAuth requirement found")
               ++ nl);
       Exit 1].
Proof.
  intros Hfair Hin Hout Hloads Hd Hbad.
  destruct (ParseConfig_failure o ReadFile Unmarshal _ root Hfair Hloads)
    as (pre & k & op & post & _ & _ & Hk & Hop & Hrun).
  { exists (routeKeyOf d), d.2. split; [|done].
    apply declaredAt_declaredOps. by exists d. }
  apply declaredAt_declaredOps in Hk as (d' & Hd' & <- & <-).
  exists d'. split; [done |]. split; [done |].
  unfold main. rewrite Hrun.
  destruct (String.eqb_spec (flag_String flags "in" EmptyString) EmptyString);
    [done |].
  destruct (String.eqb_spec (flag_String flags "out" EmptyString) EmptyString);
    [done |].
  reflexivity.
Qed.

Lemma main_refuses_misconfigured_document_witness :
  ∃ d', d' ∈ declaredOps mixed_yaml ∧ lacksBearer mixed_yaml d'.2 ∧
    main (flagParsed (<["out" := "authz.gen.go"]> {["in" := "openapi.yaml"]}))
      (ParseConfig keyOrder readAny (decodeTo mixed_yaml))
      (λ _ _, ("package httproutes", None)) (λ _ _ _, None)
    = [Stderr ("parse spec: "
               ++ (("derive policy for " ++ ToUpper d'.1.1 ++ " " ++ d'.1.2)
                   ++ ": security section present but no BearerAuth requirement found")
               ++ nl);
       Exit 1].
Proof.
  refine (main_refuses_misconfigured_document keyOrder readAny
            (decodeTo mixed_yaml)
            (<["out" := "authz.gen.go"]> {["in" := "openapi.yaml"]})
            (λ _ _, ("package httproutes", None)) (λ _ _ _, None)
            mixed_yaml
            ("get", "/keys", mkOperation (Some [apiKey ["read"]]))
            Fair_keyOrder _ _ _ _ _).
  - by vm_compute.
  - by vm_compute.
  - by eexists.
  - apply elem_of_declaredOps. eexists _, Get. split; [|split].
    + by vm_compute.
    + left.
    + done.
  - exists (apiKey ["read"]), []. split; [done |]. repeat constructor.
Defined.

(** X15.  The table is consulted by exact method and path: a request
    whose method and path are not the key of a declared operation is let
    through by the middleware over the resolved table, whatever its
    claims. *)
Theorem undeclared_route_passes (o : MapOrder)
    (ReadFile : string → string * ptr error)
    (Unmarshal : string → openapiRoot → openapiRoot * ptr error)
    (path : string) (root : openapiRoot) (cfg : Config) (r : Request) :
  Fair o →
  loads ReadFile Unmarshal path root →
  ParseConfig o ReadFile Unmarshal path = (Some cfg, None) →
  (∀ d, d ∈ declaredOps root →
        routeKeyOf d ≠ mkRouteKey (req_Method r) (req_Path r)) →
  AuthPolicyMiddleware (Policies cfg) r = Next.
Proof.
  intros Hfair Hloads Hrun Hnone.
  apply AuthPolicyMiddleware_Next. right. left.
  destruct (Policies cfg !! _) as [policy|] eqn:Hk; [|done].
  apply (ParseConfig_lookup o ReadFile Unmarshal path root cfg
           Hfair Hloads Hrun) in Hk as (op & Hdecl & _).
  apply declaredAt_declaredOps in Hdecl as (d & Hd & Hkey & _).
  by destruct (Hnone d Hd).
Qed.

Lemma undeclared_route_passes_witness :
  AuthPolicyMiddleware
    (Policies
       (default {| Policies := ∅ |}
          (ParseConfig keyOrder readAny (decodeTo both_yaml) "both.yaml").1))
    (mkRequest true "get" "/items" None) = Next.
Proof.
  refine (undeclared_route_passes keyOrder readAny (decodeTo both_yaml)
            "both.yaml" both_yaml _ (mkRequest true "get" "/items" None)
            Fair_keyOrder _ _ _).
  - by exists "both.yaml".
  - by vm_compute.
  - intros d (item & field & Hitem & Htag & Hop)%elem_of_declaredOps.
    unfold pathItem_tags in Htag. destruct d as [[tag p] op]. cbn in *.
    repeat (apply elem_of_cons in Htag as [[= -> ->] | Htag]);
      try (by vm_compute); by apply elem_of_nil in Htag.
Defined.
